(** * google.colab.drive.mount: a shallow embedding and its properties

    The module under study is [google/colab/drive.py].  Its single entry
    point [mount] drives a [/bin/bash] child through a pseudo-terminal with
    pexpect: it synchronises on a unique prompt, cleans up earlier mounts,
    validates the mountpoint, launches the drive binary, loops on the
    outcome (success marker, shell prompt, authorization URL) and finally
    suspends, backgrounds and disowns the binary.

    The embedding keeps the shape of the script.  The operating system, the
    child process and the user are the environment:
    - [host] holds what one call only reads (environment variables, the
      password database, host name, the uuid drawn, the effect of shell
      commands on the file system, the exit status the shell ends with, and
      the [mount._DEBUG] attribute);
    - [state] holds what one call changes (file system, the pty: output the
      child still has to produce and pexpect's buffer, the secrets the user
      will type, and the trace of every action performed).
    Python exceptions are the [Raise] results of a state-and-error monad. *)

From Stdlib Require Import ZArith Ascii String List Bool Lia.
From stdpp Require Import base option strings gmap list.

Local Open Scope string_scope.

(** ** Python strings *)

Module Str.

Definition LF : string := String "010" EmptyString.
Definition CR : string := String "013" EmptyString.
Definition CRLF : string := CR ++ LF.
(** the double quote *)
Definition DQ : string := String "034" EmptyString.

(** [s[n:]] *)
Fixpoint drop (n : nat) (s : string) : string :=
  match n, s with
  | O, _ => s
  | S _, EmptyString => EmptyString
  | S n', String _ s' => drop n' s'
  end.

(** [s[:n]] *)
Fixpoint take (n : nat) (s : string) : string :=
  match n, s with
  | O, _ => EmptyString
  | S _, EmptyString => EmptyString
  | S n', String c s' => String c (take n' s')
  end.

(** [s.startswith(p)] *)
Fixpoint startswith (p s : string) : bool :=
  match p, s with
  | EmptyString, _ => true
  | String _ _, EmptyString => false
  | String a p', String b s' => if Ascii.eqb a b then startswith p' s' else false
  end.

(** [s.endswith(p)] *)
Definition endswith (p s : string) : bool :=
  let n := String.length s in
  let k := String.length p in
  (k <=? n)%nat && String.eqb (drop (n - k) s) p.

(** [s.find(sub)]: the lowest index at which [sub] occurs, [None] for -1. *)
Fixpoint find (sub s : string) : option nat :=
  if startswith sub s then Some O
  else match s with
       | EmptyString => None
       | String _ s' => S <$> find sub s'
       end.

(** [s.split(sep)[0]]: the text before the first [sep], all of [s] if none. *)
Definition split_head (sep s : string) : string :=
  match find sep s with
  | Some i => take i s
  | None => s
  end.

(** [s.rstrip('/')] *)
Fixpoint rstrip_slash (s : string) : string :=
  match s with
  | EmptyString => EmptyString
  | String c s' =>
      match rstrip_slash s' with
      | EmptyString => if Ascii.eqb c "/" then EmptyString else String c EmptyString
      | r => String c r
      end
  end.

(** [s.rfind('/')]: the text up to and with the last slash, and the text
    after it; [None] when [s] has no slash. *)
Fixpoint rsplit_slash (s : string) : option (string * string) :=
  match s with
  | EmptyString => None
  | String c s' =>
      match rsplit_slash s' with
      | Some (h, t) => Some (String c h, t)
      | None => if Ascii.eqb c "/" then Some ("/", s') else None
      end
  end.

End Str.

(** ** [os.path] (posixpath), the parts that do not touch the file system *)

Module Path.

(** [os.path.join(a, b)] *)
Definition join (a b : string) : string :=
  if Str.startswith "/" b then b
  else if String.eqb a "" || Str.endswith "/" a then a ++ b
  else a ++ "/" ++ b.

Definition join3 (a b c : string) : string := join (join a b) c.

(** [os.path.split(p)]: head and tail around the last slash; the head loses
    its trailing slashes unless it is made of slashes only. *)
Definition split (p : string) : string * string :=
  match Str.rsplit_slash p with
  | None => ("", p)
  | Some (head, tail) =>
      if String.eqb (Str.rstrip_slash head) "" then (head, tail)
      else (Str.rstrip_slash head, tail)
  end.

End Path.

(** ** Exceptions and the environment *)

(** The exceptions the script can end with.  [TIMEOUT] and [EOF] are
    pexpect's; [ExceptionPexpect] is a failed [pexpect.spawn]; [EOFError] is
    [getpass] finding no more input; [OSError] is [os.listdir] failing on the
    mountpoint (the one of [os.makedirs] is caught at line 58).  [OutOfFuel] belongs to the embedding
    alone (the bound of the [while True] loop); [mount_never_out_of_fuel]
    shows that no run ends with it. *)
Inductive exn :=
  | KeyError (key : string)
  | ValueError (msg : string)
  | AssertionError
  | EOFError
  | ExceptionPexpect
  | TIMEOUT
  | EOF
  | OSError
  | OutOfFuel.

(** What the script can see of the file system, through [os.path] and [os],
    path by path as the script spells them.  [fs_unreadable p] says that
    [os.listdir(p)] raises [OSError] (no permission, say); otherwise it
    returns [fs_listdir p].  [fs_creatable p] says that [os.mkdir(p)] is
    permitted when nothing is at [p] and its parent is a directory. *)
Record filesystem := {
  fs_isdir : string → bool;
  fs_islink : string → bool;
  fs_exists : string → bool;
  fs_listdir : string → list string;
  fs_unreadable : string → bool;
  fs_realpath : string → string;
  fs_creatable : string → bool
}.

(** What the pty delivers at one read: some output, or end of file. *)
Inductive chunk :=
  | Data (text : string)
  | Eof.

Inductive child_state := NotSpawned | Running | Terminated.

(** Every action of the script that the outside world can observe.
    [Echo] is a write of child output to [sys.stdout] through
    [logfile_read]. *)
Inductive action :=
  | Print (line : string)
  | Makedirs (path : string)
  | Spawn (command : string) (args : list string) (env : gmap string string)
  | SendLine (line : string)
  | Send (text : string)
  | SendControl (char : string)
  | Terminate (force : bool)
  | Getpass (prompt : string)
  | Echo (text : string).

Record host := {
  environ : gmap string string;
  gethostname : string;
  uuid4_hex : string;
  (** [pwd.getpwuid(os.getuid()).pw_dir] and [pwd.getpwnam(name).pw_dir] *)
  pw_dir_self : option string;
  pw_dir_of : string → option string;
  (** what a command line does to the file system once the shell runs it *)
  shell : string → filesystem → filesystem;
  spawn_ok : bool;
  (** [d.isalive()] and [d.exitstatus] once the shell has closed its output *)
  final_alive : bool;
  final_status : option Z;
  (** [mount._DEBUG] *)
  DEBUG : bool
}.

Record state := {
  fs : filesystem;
  pending : list chunk;
  buffer : string;
  logfile_read : bool;
  child : child_state;
  secrets : list string;
  trace : list action
}.

Definition set_fs (f : filesystem) (s : state) : state :=
  {| fs := f; pending := pending s; buffer := buffer s;
     logfile_read := logfile_read s; child := child s;
     secrets := secrets s; trace := trace s |}.

Definition set_pty (p : list chunk) (b : string) (s : state) : state :=
  {| fs := fs s; pending := p; buffer := b;
     logfile_read := logfile_read s; child := child s;
     secrets := secrets s; trace := trace s |}.

Definition set_logfile_read (l : bool) (s : state) : state :=
  {| fs := fs s; pending := pending s; buffer := buffer s;
     logfile_read := l; child := child s;
     secrets := secrets s; trace := trace s |}.

Definition set_child (c : child_state) (s : state) : state :=
  {| fs := fs s; pending := pending s; buffer := buffer s;
     logfile_read := logfile_read s; child := c;
     secrets := secrets s; trace := trace s |}.

Definition set_secrets (l : list string) (s : state) : state :=
  {| fs := fs s; pending := pending s; buffer := buffer s;
     logfile_read := logfile_read s; child := child s;
     secrets := l; trace := trace s |}.

(** The trace grows at its end. *)
Definition log (a : list action) (s : state) : state :=
  {| fs := fs s; pending := pending s; buffer := buffer s;
     logfile_read := logfile_read s; child := child s;
     secrets := secrets s; trace := trace s ++ a |}.

(** ** The monad of the script: state, and exceptions that keep the state *)

Inductive result (A : Type) :=
  | Ok (a : A)
  | Raise (e : exn).
Arguments Ok {A} a.
Arguments Raise {A} e.

Definition M (A : Type) : Type := state → result A * state.

Definition ret {A} (a : A) : M A := λ s, (Ok a, s).
Definition raise {A} (e : exn) : M A := λ s, (Raise e, s).
Definition bind {A B} (m : M A) (k : A → M B) : M B :=
  λ s, match m s with
       | (Ok a, s') => k a s'
       | (Raise e, s') => (Raise e, s')
       end.

(** [try: m  except: h; raise] *)
Definition try_except_reraise {A} (m : M A) (h : M unit) : M A :=
  λ s, match m s with
       | (Ok a, s') => (Ok a, s')
       | (Raise e, s') =>
           match h s' with
           | (Ok _, s'') => (Raise e, s'')
           | (Raise e', s'') => (Raise e', s'')
           end
       end.

Declare Scope py_scope.
Delimit Scope py_scope with py.
Notation "x <- m ;; k" := (bind m (λ x, k))
  (at level 100, m at next level, right associativity) : py_scope.
Notation "m ;;; k" := (bind m (λ _, k))
  (at level 100, right associativity) : py_scope.
Local Open Scope py_scope.

Definition get : M state := λ s, (Ok s, s).
Definition modify (f : state → state) : M unit := λ s, (Ok tt, f s).

(** ** pexpect *)

(** The patterns the script hands to [expect]: a string, the compiled
    expression of line 123 (a group holding the text
    "Go to this URL in a browser: https://" and any run of characters other
    than line feed, followed by CR LF), and [pexpect.EOF].

    pexpect compiles a string pattern with [re.compile(p, re.DOTALL)].  The
    model reads a string pattern as literal text ([Lit]), which is what the
    compiled expression matches when the text holds no character special to
    [re].  Where it holds one (the dots of the success marker and of a host
    name, the characters of a URL in the pattern built at line 133) the
    compiled expression can match other text as well, or fail to compile;
    such matches are outside the model, and every property below is about
    the literal reading. *)
Inductive pattern :=
  | Lit (text : string)
  | AuthUrlRe
  | P_EOF.

Definition auth_url_prefix : string := "Go to this URL in a browser: https://".

(** The expression above anchored at the head of [s]: the prefix, then any
    characters but a line feed, then CR LF.  The line feed that ends
    the match is the first one after the prefix, and the character before it
    must be a carriage return.  Returns the end of the match and group 1. *)
Definition match_auth_url_here (s : string) : option (nat * string) :=
  if Str.startswith auth_url_prefix s then
    let k := String.length auth_url_prefix in
    match Str.find Str.LF (Str.drop k s) with
    | Some (S j) =>
        if String.eqb (Str.take 1 (Str.drop (k + j) s)) Str.CR
        then Some (k + j + 2, Str.take (k + j) s)
        else None
    | _ => None
    end
  else None.

(** [re.search] for that expression: leftmost match; start, end, group 1. *)
Fixpoint search_auth_url (s : string) : option (nat * nat * string) :=
  match match_auth_url_here s with
  | Some (e, g) => Some (O, e, g)
  | None =>
      match s with
      | EmptyString => None
      | String _ s' =>
          match search_auth_url s' with
          | Some (b, e, g) => Some (S b, S e, g)
          | None => None
          end
      end
  end.

Definition search_pattern (p : pattern) (buf : string) : option (nat * nat * string) :=
  match p with
  | Lit t =>
      match Str.find t buf with
      | Some i => Some (i, i + String.length t, "")
      | None => None
      end
  | AuthUrlRe => search_auth_url buf
  | P_EOF => None
  end.

(** A match found by [expect]: index of the pattern in the list, start and
    end of the match in the buffer, group 1. *)
Record found := {
  f_index : nat;
  f_start : nat;
  f_end : nat;
  f_group1 : string
}.

(** pexpect's [searcher_re.search]: among the patterns that match, the one
    that starts first in the buffer; a later pattern of the list wins only
    with a strictly earlier start. *)
Fixpoint search (ps : list pattern) (i : nat) (buf : string) : option found :=
  match ps with
  | [] => None
  | p :: ps' =>
      let later := search ps' (S i) buf in
      match search_pattern p buf with
      | None => later
      | Some (b, e, g) =>
          let here := {| f_index := i; f_start := b; f_end := e; f_group1 := g |} in
          match later with
          | Some l => if (f_start l <? b)%nat then Some l else Some here
          | None => Some here
          end
      end
  end.

Fixpoint eof_index (ps : list pattern) (i : nat) : option nat :=
  match ps with
  | [] => None
  | P_EOF :: _ => Some i
  | _ :: ps' => eof_index ps' (S i)
  end.

Inductive expect_outcome :=
  | Matched (index : nat) (group1 : string)
  | TimedOut
  | ReachedEof.

(** pexpect's [expect_loop]: search the buffer; without a match read more and
    search again.  A match leaves the text after it in the buffer.  No more
    output before the deadline is [TimedOut] and keeps the buffer; end of
    file empties it.  Returns the outcome, the output still to come, the
    buffer, and what was read (for [logfile_read]). *)
Fixpoint expect_loop (ps : list pattern) (buf : string) (pend : list chunk)
    : expect_outcome * list chunk * string * list string :=
  match search ps 0 buf with
  | Some f => (Matched (f_index f) (f_group1 f), pend, Str.drop (f_end f) buf, [])
  | None =>
      match pend with
      | [] => (TimedOut, [], buf, [])
      | Eof :: _ => (ReachedEof, pend, "", [])
      | Data c :: pend' =>
          let '(o, p, b, r) := expect_loop ps (buf ++ c) pend' in
          (o, p, b, c :: r)
      end
  end.

(** [d.expect(patterns)]: the index of the pattern matched and group 1 of
    the match.  With [logfile_read] set, everything read is written to
    [sys.stdout]. *)
Definition expect (ps : list pattern) : M (nat * string) :=
  λ s,
    let '(o, pend, buf, read) := expect_loop ps (buffer s) (pending s) in
    let s' := log (if logfile_read s then Echo <$> read else []) (set_pty pend buf s) in
    match o with
    | Matched i g => (Ok (i, g), s')
    | TimedOut => (Raise TIMEOUT, s')
    | ReachedEof =>
        match eof_index ps 0 with
        | Some i => (Ok (i, ""), s')
        | None => (Raise EOF, s')
        end
    end.

Section Primitives.

Variable h : host.

(** [pexpect.spawn(command, args=args, ..., env=env)] *)
Definition spawn (command : string) (args : list string)
    (env : gmap string string) : M unit :=
  if spawn_ok h
  then modify (λ s, log [Spawn command args env] (set_child Running s))
  else raise ExceptionPexpect.

(** [d.sendline(line)]; the shell runs the line. *)
Definition sendline (line : string) : M unit :=
  modify (λ s, log [SendLine line] (set_fs (shell h line (fs s)) s)).

(** [d.send(text)] *)
Definition send (text : string) : M unit :=
  modify (log [Send text]).

(** [d.sendcontrol(char)] *)
Definition sendcontrol (char : string) : M unit :=
  modify (log [SendControl char]).

(** [d.terminate(force=force)] *)
Definition terminate (force : bool) : M unit :=
  modify (λ s, log [Terminate force] (set_child Terminated s)).

(** [d.isalive()] *)
Definition isalive : M bool :=
  s <- get ;;
  ret (match child s with
       | Running => final_alive h
       | _ => false
       end).

(** [d.exitstatus] *)
Definition exitstatus : M (option Z) := ret (final_status h).

(** [print(line)] *)
Definition print (line : string) : M unit :=
  modify (log [Print line]).

(** [getpass.getpass(prompt)] *)
Definition getpass (prompt : string) : M string :=
  s <- get ;;
  match secrets s with
  | [] => modify (log [Getpass prompt]) ;;; raise EOFError
  | code :: rest =>
      modify (λ s, log [Getpass prompt] (set_secrets rest s)) ;;;
      ret code
  end.

(** [os.environ[key]] *)
Definition environ_get (key : string) : M string :=
  match environ h !! key with
  | Some v => ret v
  | None => raise (KeyError key)
  end.

(** [os.path.expanduser(path)] *)
Definition expanduser (path : string) : string :=
  if Str.startswith "~" path then
    let i := match Str.find "/" (Str.drop 1 path) with
             | Some j => S j
             | None => String.length path
             end in
    let userhome :=
      if (i =? 1)%nat then
        match environ h !! "HOME" with
        | Some v => Some v
        | None => pw_dir_self h
        end
      else pw_dir_of h (Str.take (i - 1) (Str.drop 1 path)) in
    match userhome with
    | None => path
    | Some u =>
        let r := Str.rstrip_slash u ++ Str.drop i path in
        if String.eqb r "" then "/" else r
    end
  else path.

End Primitives.

(** [os.path.isdir], [islink], [exists] and [realpath]; they do not raise. *)
Definition isdir (p : string) : M bool := s <- get ;; ret (fs_isdir (fs s) p).
Definition islink (p : string) : M bool := s <- get ;; ret (fs_islink (fs s) p).
Definition exists_ (p : string) : M bool := s <- get ;; ret (fs_exists (fs s) p).
Definition realpath (p : string) : M string := s <- get ;; ret (fs_realpath (fs s) p).

(** [os.listdir(p)]; it raises [OSError] on a directory it cannot read. *)
Definition listdir (p : string) : M (list string) :=
  s <- get ;;
  if fs_unreadable (fs s) p then raise OSError else ret (fs_listdir (fs s) p).

(** The file system after [os.mkdir(path)] succeeded: [path] is an empty
    directory, and its parent lists it. *)
Definition with_new_dir (path : string) (f : filesystem) : filesystem :=
  let head := fst (Path.split path) in
  let tail := snd (Path.split path) in
  {| fs_isdir := λ q, if String.eqb q path then true else fs_isdir f q;
     fs_islink := λ q, if String.eqb q path then false else fs_islink f q;
     fs_exists := λ q, if String.eqb q path then true else fs_exists f q;
     fs_listdir := λ q, if String.eqb q path then []
                        else if String.eqb q head then (fs_listdir f q ++ [tail])%list
                        else fs_listdir f q;
     fs_unreadable := λ q, if String.eqb q path then false else fs_unreadable f q;
     fs_realpath := fs_realpath f;
     fs_creatable := fs_creatable f |}.

(** How [os.mkdir] and [os.makedirs] end: normally, with [FileExistsError],
    or with another [OSError]. *)
Inductive mkdir_result := Made | FileExists | Failed.

(** [os.mkdir(path)] *)
Definition mkdir (path : string) (f : filesystem) : mkdir_result * filesystem :=
  let head := fst (Path.split path) in
  if fs_exists f path || fs_islink f path then (FileExists, f)
  else if negb (String.eqb head "") && negb (fs_isdir f head) then (Failed, f)
  else if fs_creatable f path then (Made, with_new_dir path f)
  else (Failed, f).

(** [os.makedirs(name)] on the file system: the missing parents are created
    first, from the top; a parent that turns out to exist is no error; with
    [.] as last component only the parents are created.  What was created
    stays when a later step fails.  Every call goes to a head shorter than
    the name, so the length of the name bounds the recursion. *)
Fixpoint makedirs_fs (fuel : nat) (name : string) (f : filesystem)
    : mkdir_result * filesystem :=
  let (head, tail) :=
    if String.eqb (snd (Path.split name)) "" then Path.split (fst (Path.split name))
    else Path.split name in
  if negb (String.eqb head "") && negb (String.eqb tail "") && negb (fs_exists f head)
  then
    match fuel with
    | O => mkdir name f
    | S fuel' =>
        match makedirs_fs fuel' head f with
        | (Failed, f1) => (Failed, f1)
        | (_, f1) => if String.eqb tail "." then (Made, f1) else mkdir name f1
        end
    end
  else mkdir name f.

(** [os.makedirs(path)] as the script uses it at lines 56-58, with the
    [OSError] it may raise as [false]. *)
Definition makedirs (path : string) : M bool :=
  s <- get ;;
  match makedirs_fs (String.length path) path (fs s) with
  | (Made, f') => modify (λ s, log [Makedirs path] (set_fs f' s)) ;;; ret true
  | (_, f') => modify (set_fs f') ;;; ret false
  end.

(** ** The script *)

(** The local variables fixed by lines 43-54. *)
Record settings := {
  home : string;
  root_dir : string;
  inet_family : string;
  dev : string;
  path : string
}.

Definition already_mounted_message (mountpoint : string) : string :=
  "Drive already mounted at " ++ mountpoint ++
  "; to attempt to forcibly remount, call drive.mount(" ++ Str.DQ ++ mountpoint ++
  Str.DQ ++ ", force_remount=True).".

Definition config_dir_of (st : settings) : string :=
  Path.join3 (home st) ".config" "Google".

Definition config_dir_message (config_dir : string) : string :=
  config_dir ++ " must be a directory if present".

Definition default_path : string :=
  "/usr/local/bin:/usr/local/sbin:/usr/bin:/usr/sbin:/bin:/sbin:.".

(** Lines 46-54.  [home0] is [os.environ['HOME']]; the script reads it a
    second time at line 52 and gets the same value. *)
Definition choose_settings (home0 root_dir : string) : settings :=
  if (1 <? String.length root_dir)%nat then
    let fum := Str.split_head "mount" home0 ++ "/mount/alloc/fusermount" in
    {| home := Path.join root_dir home0;
       root_dir := root_dir;
       inet_family := "IPV6_ONLY";
       dev := fum ++ "/dev/fuse";
       path := default_path ++ ":" ++ fum ++ "/bin" |}
  else
    {| home := home0;
       root_dir := root_dir;
       inet_family := "IPV4_ONLY";
       dev := "/dev/fuse";
       path := default_path |}.

(** Lines 43-60: the environment of the child, and the configuration
    directory. *)
Definition configure (h : host) : M settings :=
  home0 <- environ_get h "HOME" ;;
  cloudsdk_config <- environ_get h "CLOUDSDK_CONFIG" ;;
  root_dir <- realpath (Path.join cloudsdk_config "../..") ;;
  let st := choose_settings home0 root_dir in
  let config_dir := config_dir_of st in
  made <- makedirs config_dir ;;
  if made then ret st
  else
    is_dir <- isdir config_dir ;;
    if negb is_dir then raise (ValueError (config_dir_message config_dir))
    else ret st.

Definition prompt_of (h : host) : string :=
  "root@" ++ gethostname h ++ "-" ++ uuid4_hex h ++ ": ".

Definition child_env (st : settings) : gmap string string :=
  <["HOME" := home st]> (<["FUSE_DEV_NAME" := dev st]> (<["PATH" := path st]> ∅)).

Definition export_ps1 (prompt : string) : string :=
  "export PS1=" ++ Str.DQ ++ prompt ++ Str.DQ.

Definition cleanup_command (mnt : string) : string :=
  "umount -f " ++ mnt ++ " || umount " ++ mnt ++ "; pkill -9 -x drive".

(** Lines 67-91: spawn bash, set the prompt, unmount and kill what an
    earlier call left.  Returns the prompt. *)
Definition open_session (h : host) (st : settings) (mountpoint : string) : M string :=
  let prompt := prompt_of h in
  spawn h "/bin/bash" ["--noediting"] (child_env st) ;;;
  (if DEBUG h then modify (set_logfile_read true) else ret tt) ;;;
  sendline h (export_ps1 prompt) ;;;
  expect [Lit prompt] ;;;
  expect [Lit prompt] ;;;
  sendline h (cleanup_command mountpoint) ;;;
  expect [Lit "pkill"] ;;;
  expect [Lit prompt] ;;;
  ret prompt.

(** Lines 94-99, the body of the [try]. *)
Definition check_mountpoint (mountpoint : string) : M unit :=
  is_link <- islink mountpoint ;;
  (if is_link then raise (ValueError "Mountpoint must not be a symlink") else ret tt) ;;;
  is_dir <- isdir mountpoint ;;
  entries <- (if is_dir then listdir mountpoint else ret []) ;;
  (if is_dir && negb (bool_decide (entries = []))
   then raise (ValueError "Mountpoint must not already contain files") else ret tt) ;;;
  is_dir' <- isdir mountpoint ;;
  present <- (if negb is_dir' then exists_ mountpoint else ret false) ;;
  (if negb is_dir' && present
   then raise (ValueError "Mountpoint must either be a directory or not exist")
   else ret tt).

(** Lines 93-102. *)
Definition validate (mountpoint : string) : M unit :=
  try_except_reraise (check_mountpoint mountpoint) (terminate true).

Definition success : string := "google.colab.drive MOUNTED".

Definition success_watcher (m : string) : string :=
  "( while `sleep 0.5`; do if [[ -d " ++ Str.DQ ++ m ++ Str.DQ ++ " && " ++
  Str.DQ ++ "$(ls -A " ++ m ++ ")" ++ Str.DQ ++ " != " ++ Str.DQ ++ Str.DQ ++
  " ]]; then echo " ++ Str.DQ ++ success ++ Str.DQ ++ "; break; fi; done ) &".

Definition drive_command (st : settings) (mnt : string) : string :=
  let d := Path.join (root_dir st) "opt/google/drive" in
  d ++ "/drive --features=opendir_timeout_ms:15000,virtual_folders:true " ++
  "--inet_family=" ++ inet_family st ++ " " ++
  "--preferences=trusted_root_certs_file_path:" ++
  d ++ "/roots.pem,mount_point_path:" ++ mnt ++ " --console_auth".

(** Lines 104-118: the success watcher, then the drive binary. *)
Definition launch (h : host) (st : settings) (mountpoint prompt : string) : M unit :=
  sendline h (success_watcher mountpoint) ;;;
  expect [Lit prompt] ;;;
  sendline h (drive_command st mountpoint).

Definition auth_prompt (group1 : string) : string :=
  group1 ++ Str.LF ++ Str.LF ++ "Enter your authorization code:" ++ Str.LF.

(** Lines 120-134, the [while True] loop.  [prompt] is the script's variable
    of that name: the branch [case == 2] assigns to it, and the next
    iteration builds its pattern list from the new value. *)
Fixpoint await_outcome (fuel : nat) (h : host) (prompt : string) : M unit :=
  match fuel with
  | O => raise OutOfFuel
  | S fuel' =>
      r <- expect [Lit success; Lit prompt; AuthUrlRe] ;;
      match fst r with
      | 0%nat => ret tt
      | 1%nat => terminate true ;;; raise (ValueError "mount failed")
      | 2%nat =>
          let prompt := auth_prompt (snd r) in
          code <- getpass prompt ;;
          send (code ++ Str.LF) ;;;
          await_outcome fuel' h prompt
      | _ => await_outcome fuel' h prompt
      end
  end.

Definition mounted_message (mountpoint : string) : string :=
  "Mounted at " ++ mountpoint.

(** Lines 135-141. *)
Definition handoff (h : host) (mountpoint : string) : M unit :=
  sendcontrol "z" ;;;
  expect [Lit "Stopped"] ;;;
  sendline h "bg; disown; exit" ;;;
  expect [P_EOF] ;;;
  alive <- isalive h ;;
  (if alive then raise AssertionError else ret tt) ;;;
  status <- exitstatus h ;;
  (if bool_decide (status = Some 0%Z) then ret tt else raise AssertionError) ;;;
  print (mounted_message mountpoint).

(** [mount(mountpoint, force_remount)].  Every pass of the loop that does not
    leave it takes one secret from the user, so one more pass than there are
    secrets is all the loop can make. *)
Definition mount (h : host) (mountpoint : string) (force_remount : bool) : M unit :=
  let mountpoint := expanduser h mountpoint in
  already_mounted <- isdir (Path.join mountpoint "My Drive") ;;
  if negb force_remount && already_mounted then
    print (already_mounted_message mountpoint)
  else
    st <- configure h ;;
    prompt <- open_session h st mountpoint ;;
    validate mountpoint ;;;
    launch h st mountpoint prompt ;;;
    s <- get ;;
    await_outcome (S (length (secrets s))) h prompt ;;;
    handoff h mountpoint.

(** Initial segments of the script: up to the validation of the mountpoint,
    and up to the loop.  They return the settings and the prompt. *)
Definition until_validation (h : host) (mountpoint : string) : M (settings * string) :=
  st <- configure h ;;
  prompt <- open_session h st mountpoint ;;
  ret (st, prompt).

Definition until_loop (h : host) (mountpoint : string) : M (settings * string) :=
  sp <- until_validation h mountpoint ;;
  validate mountpoint ;;;
  launch h (fst sp) mountpoint (snd sp) ;;;
  ret sp.

(** The same host with another value of [mount._DEBUG], or another final
    exit status. *)
Definition with_debug (b : bool) (h : host) : host :=
  {| environ := environ h; gethostname := gethostname h; uuid4_hex := uuid4_hex h;
     pw_dir_self := pw_dir_self h; pw_dir_of := pw_dir_of h; shell := shell h;
     spawn_ok := spawn_ok h; final_alive := final_alive h;
     final_status := final_status h; DEBUG := b |}.

Definition with_status (z : option Z) (h : host) : host :=
  {| environ := environ h; gethostname := gethostname h; uuid4_hex := uuid4_hex h;
     pw_dir_self := pw_dir_self h; pw_dir_of := pw_dir_of h; shell := shell h;
     spawn_ok := spawn_ok h; final_alive := final_alive h;
     final_status := z; DEBUG := DEBUG h |}.

(** The trace without what [logfile_read] wrote. *)
Fixpoint commands (t : list action) : list action :=
  match t with
  | [] => []
  | Echo _ :: t' => commands t'
  | a :: t' => a :: commands t'
  end.

(** ** A simulated Colab machine

    Concrete hosts, file systems and sessions, on which the script is
    evaluated. *)

Module Sim.

Definition const_fs (dirs links files : list string)
    (entries : string → list string) : filesystem :=
  {| fs_isdir := λ p, existsb (String.eqb p) dirs;
     fs_islink := λ p, existsb (String.eqb p) links;
     fs_exists := λ p, existsb (String.eqb p) dirs || existsb (String.eqb p) files;
     fs_listdir := entries;
     fs_unreadable := λ _, false;
     fs_realpath := λ p, if String.eqb p "/content/.config/../.." then "/" else p;
     fs_creatable := λ _, true |}.

(** A fresh machine: no mount yet, no configuration directory. *)
Definition fresh_fs : filesystem :=
  const_fs ["/"; "/root"; "/content"] [] [] (λ _, []).

Definition colab : host :=
  {| environ := <["HOME" := "/root"]> (<["CLOUDSDK_CONFIG" := "/content/.config"]> ∅);
     gethostname := "colab";
     uuid4_hex := "0f1e2d3c4b5a69788796a5b4c3d2e1f0";
     pw_dir_self := Some "/root";
     pw_dir_of := λ _, None;
     shell := λ _ f, f;
     spawn_ok := true;
     final_alive := false;
     final_status := Some 0%Z;
     DEBUG := false |}.

Definition start (f : filesystem) (out : list chunk) (codes : list string) : state :=
  {| fs := f; pending := out; buffer := ""; logfile_read := false;
     child := NotSpawned; secrets := codes; trace := [] |}.

Definition PS1 : string := prompt_of colab.

Definition settings_v4 : settings :=
  {| home := "/root"; root_dir := "/"; inet_family := "IPV4_ONLY";
     dev := "/dev/fuse"; path := default_path |}.

(** What bash shows for a line typed at it: the echo of the line. *)
Definition echo (line : string) : chunk := Data (line ++ Str.CRLF).

(** The output of a session up to the launch of the drive binary, for the
    mountpoint [mnt]. *)
Definition until_launch (mnt : string) : list chunk :=
  [ echo (export_ps1 PS1); Data PS1;
    echo (cleanup_command mnt); Data ("umount: " ++ mnt ++ ": not mounted" ++ Str.CRLF);
    Data PS1;
    echo (success_watcher mnt); Data ("[1] 4242" ++ Str.CRLF); Data PS1;
    echo (drive_command settings_v4 mnt) ].

Definition mounted : chunk := Data (success ++ Str.CRLF).

Definition auth_url : string :=
  "Go to this URL in a browser: https://accounts.google.com/o/oauth2/auth?client_id=4711".

Definition asks_for_code : chunk := Data (auth_url ++ Str.CRLF).

(** After control-Z, and after [bg; disown; exit]. *)
Definition stopped : list chunk :=
  [ Data ("^Z" ++ Str.CRLF ++ "[2]+  Stopped                 /opt/google/drive/drive" ++ Str.CRLF);
    Data PS1 ].
Definition closes : list chunk :=
  [ echo "bg; disown; exit"; Data ("[2]+ /opt/google/drive/drive &" ++ Str.CRLF);
    Data ("exit" ++ Str.CRLF); Eof ].

(** The mountpoint of the examples. *)
Definition drive : string := "/content/drive".

(** Drive is mounted at [drive] already. *)
Definition mounted_fs : filesystem :=
  const_fs ["/"; "/root"; "/content"; "/content/drive"; "/content/drive/My Drive"] [] []
    (λ p, if String.eqb p "/content/drive" then ["My Drive"] else []).

(** [drive] is a symlink to an empty directory. *)
Definition symlink_fs : filesystem :=
  const_fs ["/"; "/root"; "/content"; "/content/drive"] ["/content/drive"] [] (λ _, []).

(** A session that answers as bash does up to the validation. *)
Definition symlink_start : state := start symlink_fs (until_launch drive) [].
Definition symlink_at_validation : state :=
  snd (until_validation colab drive symlink_start).

Definition mounted_start : state := start mounted_fs [] [].

(** A session in which the success marker comes right after the launch, and
    nothing after it. *)
Definition silent_after_success : state :=
  start fresh_fs (until_launch drive ++ [mounted]) [].

(** A session in which everything goes well, without authorization. *)
Definition smooth : state :=
  start fresh_fs (until_launch drive ++ [mounted] ++ stopped ++ closes) [].
Definition smooth_at_loop : state := snd (until_loop colab drive smooth).
Definition smooth_after_success : state :=
  snd (expect [Lit success; Lit PS1; AuthUrlRe] smooth_at_loop).
Definition smooth_stopped : state :=
  snd ((sendcontrol "z" ;;; expect [Lit "Stopped"]) smooth_after_success).
Definition smooth_closed : state :=
  snd ((sendline colab "bg; disown; exit" ;;; expect [P_EOF]) smooth_stopped).

(** A session that asks for the authorization code once. *)
Definition code : string := "4/0AX4XfWh".
Definition with_auth : state :=
  start fresh_fs
    (until_launch drive ++ [asks_for_code; echo ""; mounted] ++ stopped ++ closes) [code].
Definition with_auth_at_loop : state := snd (until_loop colab drive with_auth).
Definition with_auth_asked : state :=
  snd (expect [Lit success; Lit PS1; AuthUrlRe] with_auth_at_loop).
Definition with_auth_typed : state :=
  snd (getpass (auth_prompt auth_url) with_auth_asked).
Definition with_auth_mounted : state :=
  snd ((send (code ++ Str.LF) ;;;
        expect [Lit success; Lit (auth_prompt auth_url); AuthUrlRe]) with_auth_typed).

(** A session in which the drive binary dies after the code was typed: the
    shell prompt comes back. *)
Definition crash_after_auth : state :=
  start fresh_fs (until_launch drive ++ [asks_for_code; echo ""; Data PS1]) [code].

(** A session in which the drive binary dies at once. *)
Definition crash_at_once : state :=
  start fresh_fs (until_launch drive ++ [Data PS1]) [].

(** A smooth session whose shell ends with status 1. *)
Definition failing : host := with_status (Some 1%Z) colab.



(** A session for the mountpoint [~/drive], which is [/root/drive]. *)
Definition at_home : state :=
  start fresh_fs (until_launch "/root/drive" ++ [mounted] ++ stopped ++ closes) [].

(** A host without [CLOUDSDK_CONFIG] (not a Colab machine). *)
Definition elsewhere : host :=
  {| environ := <["HOME" := "/home/user"]> ∅;
     gethostname := "laptop";
     uuid4_hex := "0f1e2d3c4b5a69788796a5b4c3d2e1f0";
     pw_dir_self := Some "/home/user";
     pw_dir_of := λ _, None;
     shell := λ _ f, f;
     spawn_ok := true;
     final_alive := false;
     final_status := Some 0%Z;
     DEBUG := false |}.

(** The Colab machine with [mount._DEBUG = True]. *)
Definition verbose : host := with_debug true colab.
Definition crash_at_once_at_loop : state := snd (until_loop colab drive crash_at_once).
Definition crash_at_once_seen : state :=
  snd (expect [Lit success; Lit PS1; AuthUrlRe] crash_at_once_at_loop).


(** The mountpoint is a directory that [os.listdir] cannot read. *)
Definition unreadable_fs : filesystem :=
  {| fs_isdir := fs_isdir symlink_fs;
     fs_islink := λ _, false;
     fs_exists := fs_exists symlink_fs;
     fs_listdir := λ _, [];
     fs_unreadable := λ p, String.eqb p drive;
     fs_realpath := fs_realpath symlink_fs;
     fs_creatable := λ _, true |}.
Definition unreadable : state := start unreadable_fs (until_launch drive) [].
Definition unreadable_at_validation : state :=
  snd (until_validation colab drive unreadable).

End Sim.


(** * Vocabulary of the properties *)

(** [quiet s s']: from [s] to [s'] nothing happened but reads from the pty
    (and their echo, when [logfile_read] is set). *)
Definition quiet (s s' : state) : Prop :=
  fs s' = fs s ∧ child s' = child s ∧ secrets s' = secrets s ∧
  logfile_read s' = logfile_read s ∧
  ∃ t, trace s' = (trace s ++ t)%list ∧ commands t = [].

(** [emits okA okE m]: whatever the state, [m] adds to the trace only actions
    in [okA], and raises only exceptions in [okE]. *)
Definition emits {A} (okA : action → Prop) (okE : exn → Prop) (m : M A) : Prop :=
  ∀ s r s', m s = (r, s') →
    (∃ t, trace s' = (trace s ++ t)%list ∧ Forall okA t) ∧
    (∀ e, r = Raise e → okE e).

(** [did s s' cs]: the trace of [s'] is the trace of [s] followed by the
    actions [cs], in this order, and by echoes only. *)
Definition did (s s' : state) (cs : list action) : Prop :=
  ∃ t, trace s' = (trace s ++ t)%list ∧ commands t = cs.

(** [progress s0 s c l cs]: since [s0] the script did [cs], the child is in
    state [c], [logfile_read] is [l], and the user typed nothing. *)
Record progress (s0 s : state) (c : child_state) (l : bool) (cs : list action) : Prop := {
  pr_child : child s = c;
  pr_secrets : secrets s = secrets s0;
  pr_logfile : logfile_read s = l;
  pr_did : did s0 s cs
}.

(** What lines 67-91 do when every [expect] finds its pattern. *)
Definition session_opened (h : host) (st : settings) (m : string) : list action :=
  [ Spawn "/bin/bash" ["--noediting"] (child_env st);
    SendLine (export_ps1 (prompt_of h));
    SendLine (cleanup_command m) ].

(** The three messages of lines 95, 97 and 99. *)
Definition validation_messages : list string :=
  [ "Mountpoint must not be a symlink";
    "Mountpoint must not already contain files";
    "Mountpoint must either be a directory or not exist" ].

(** How lines 94-99 end on the mountpoint [m] in the file system [f]: the
    exception they raise, if any. *)
Definition verdict (f : filesystem) (m : string) : option exn :=
  if fs_islink f m then Some (ValueError "Mountpoint must not be a symlink")
  else if fs_isdir f m then
    if fs_unreadable f m then Some OSError
    else if negb (bool_decide (fs_listdir f m = []))
    then Some (ValueError "Mountpoint must not already contain files")
    else None
  else if fs_exists f m
  then Some (ValueError "Mountpoint must either be a directory or not exist")
  else None.

(** The guard of line 38. *)
Definition short_circuit (h : host) (mountpoint : string) (force_remount : bool)
    (s : state) : bool :=
  negb force_remount &&
  fs_isdir (fs s) (Path.join (expanduser h mountpoint) "My Drive").

Definition is_makedirs (a : action) : Prop :=
  match a with Makedirs _ => True | _ => False end.


(** The prompts [getpass] was called with, in order. *)
Fixpoint getpass_prompts (t : list action) : list string :=
  match t with
  | [] => []
  | Getpass p :: t' => p :: getpass_prompts t'
  | _ :: t' => getpass_prompts t'
  end.

Definition not_getpass (a : action) : Prop :=
  match a with Getpass _ => False | _ => True end.


(** Two states that differ at most in [logfile_read] and in the echoes of
    the trace. *)
Definition same_run (s1 s2 : state) : Prop :=
  fs s1 = fs s2 ∧ pending s1 = pending s2 ∧ buffer s1 = buffer s2 ∧
  child s1 = child s2 ∧ secrets s1 = secrets s2 ∧
  commands (trace s1) = commands (trace s2).

(** Two pieces of script that, from such states, end with the same result
    in such states. *)
Definition agree {A} (m1 m2 : M A) : Prop :=
  ∀ s1 s2, same_run s1 s2 →
    fst (m1 s1) = fst (m2 s2) ∧ same_run (snd (m1 s1)) (snd (m2 s2)).

Definition not_out_of_fuel (e : exn) : Prop := e ≠ OutOfFuel.

(** The messages of the errors raised after [d.terminate(force=True)]:
    line 130 and lines 95-99. *)
Definition fatal_messages : list string := "mount failed" :: validation_messages.

(** The exceptions raised after [d.terminate(force=True)]: the [ValueError]
    with one of the fatal messages, and the [OSError] of [os.listdir], which
    the bare [except] of line 100 catches and raises again. *)
Definition fatal (e : exn) : Prop :=
  e = OSError ∨ ∃ msg, e = ValueError msg ∧ msg ∈ fatal_messages.

(** [kills_with_error m]: started with a child that is not terminated, [m]
    leaves it terminated exactly when it raises a fatal exception, and then
    [Terminate true] is the last action. *)
Definition kills_with_error {A} (m : M A) : Prop :=
  ∀ s r s', child s ≠ Terminated → m s = (r, s') →
    (child s' = Terminated ↔ ∃ e, r = Raise e ∧ fatal e) ∧
    (child s' = Terminated → ∃ t, trace s' = (t ++ [Terminate true])%list).

(** An exception that is not fatal. *)
Definition harmless (e : exn) : Prop := ¬ fatal e.

(** What the loop does in its authorization rounds: for each round, given as
    the group captured and the code typed, a call of [getpass] and the code
    sent with a line feed. *)
Definition rounds (rs : list (string * string)) : list action :=
  flat_map (λ r, [Getpass (auth_prompt (fst r)); Send (snd r ++ Str.LF)]) rs.

(** [no_echo m]: with [logfile_read] unset, [m] leaves it unset and writes
    no child output to [sys.stdout]. *)
Definition no_echo {A} (m : M A) : Prop :=
  ∀ s r s', logfile_read s = false → m s = (r, s') →
    logfile_read s' = false ∧
    ∃ t, trace s' = (trace s ++ t)%list ∧ commands t = t.

(** The child output written to [sys.stdout], in order. *)
Fixpoint echoes (t : list action) : list string :=
  match t with
  | [] => []
  | Echo text :: t' => text :: echoes t'
  | _ :: t' => echoes t'
  end.

(** [echo_all m]: with [logfile_read] set, [m] leaves it set and writes to
    [sys.stdout] exactly what it reads from the child. *)
Definition echo_all {A} (m : M A) : Prop :=
  ∀ s r s', logfile_read s = true → m s = (r, s') →
    logfile_read s' = true ∧
    ∃ t, trace s' = (trace s ++ t)%list ∧
         pending s = ((Data <$> echoes t) ++ pending s')%list.

(** The action is a call of [d.terminate]. *)
Definition is_terminate (a : action) : bool :=
  match a with Terminate _ => true | _ => false end.

(** [spares_child m]: [m] calls [d.terminate] only in a run that ends with a
    fatal exception. *)
Definition spares_child {A} (m : M A) : Prop :=
  ∀ s r s', m s = (r, s') →
    ∃ t, trace s' = (trace s ++ t)%list ∧
         ((∃ e, r = Raise e ∧ fatal e) ∨ Forall (λ a, is_terminate a = false) t).

(** The failures of a run that are not raised by the script itself:
    pexpect's, [getpass]'s and the assertions'. *)
Definition unhandled_failures : list exn := [TIMEOUT; EOF; EOFError; AssertionError].

(** * Properties *)

(** ** The monad *)

Lemma bind_Ok {A B} (m : M A) (k : A → M B) s a s1 :
  m s = (Ok a, s1) → bind m k s = k a s1.
Proof. intros E. unfold bind. now rewrite E. Qed.

Lemma bind_Raise {A B} (m : M A) (k : A → M B) s e s1 :
  m s = (Raise e, s1) → bind m k s = (Raise e, s1).
Proof. intros E. unfold bind. now rewrite E. Qed.

Lemma bind_inv {A B} (m : M A) (k : A → M B) s r s' :
  bind m k s = (r, s') →
  (∃ a s1, m s = (Ok a, s1) ∧ k a s1 = (r, s')) ∨
  (∃ e, m s = (Raise e, s') ∧ r = Raise e).
Proof.
  unfold bind. destruct (m s) as [[a|e] s1]; intros E.
  - left. eauto.
  - right. inversion E; subst. eauto.
Qed.

Lemma bind_assoc {A B C} (m : M A) (k : A → M B) (k' : B → M C) s :
  bind (bind m k) k' s = bind m (λ a, bind (k a) k') s.
Proof. unfold bind. destruct (m s) as [[a|e] s1]; reflexivity. Qed.

Lemma commands_app t u : commands (t ++ u) = (commands t ++ commands u)%list.
Proof.
  induction t as [|a t IH]; [reflexivity|].
  destruct a; cbn; rewrite ?IH; reflexivity.
Qed.

Lemma commands_echo l : commands (Echo <$> l) = [].
Proof. induction l; cbn; auto. Qed.


(** ** The state: what each update leaves alone *)

Lemma fs_set_fs f s : fs (set_fs f s) = f.
Proof. reflexivity. Qed.

Lemma pending_set_fs f s : pending (set_fs f s) = pending s.
Proof. reflexivity. Qed.

Lemma buffer_set_fs f s : buffer (set_fs f s) = buffer s.
Proof. reflexivity. Qed.

Lemma logfile_read_set_fs f s : logfile_read (set_fs f s) = logfile_read s.
Proof. reflexivity. Qed.

Lemma child_set_fs f s : child (set_fs f s) = child s.
Proof. reflexivity. Qed.

Lemma secrets_set_fs f s : secrets (set_fs f s) = secrets s.
Proof. reflexivity. Qed.

Lemma trace_set_fs f s : trace (set_fs f s) = trace s.
Proof. reflexivity. Qed.

Lemma fs_set_child c s : fs (set_child c s) = fs s.
Proof. reflexivity. Qed.

Lemma pending_set_child c s : pending (set_child c s) = pending s.
Proof. reflexivity. Qed.

Lemma buffer_set_child c s : buffer (set_child c s) = buffer s.
Proof. reflexivity. Qed.

Lemma logfile_read_set_child c s : logfile_read (set_child c s) = logfile_read s.
Proof. reflexivity. Qed.

Lemma child_set_child c s : child (set_child c s) = c.
Proof. reflexivity. Qed.

Lemma secrets_set_child c s : secrets (set_child c s) = secrets s.
Proof. reflexivity. Qed.

Lemma trace_set_child c s : trace (set_child c s) = trace s.
Proof. reflexivity. Qed.

Lemma fs_set_secrets l s : fs (set_secrets l s) = fs s.
Proof. reflexivity. Qed.

Lemma pending_set_secrets l s : pending (set_secrets l s) = pending s.
Proof. reflexivity. Qed.

Lemma buffer_set_secrets l s : buffer (set_secrets l s) = buffer s.
Proof. reflexivity. Qed.

Lemma logfile_read_set_secrets l s : logfile_read (set_secrets l s) = logfile_read s.
Proof. reflexivity. Qed.

Lemma child_set_secrets l s : child (set_secrets l s) = child s.
Proof. reflexivity. Qed.

Lemma secrets_set_secrets l s : secrets (set_secrets l s) = l.
Proof. reflexivity. Qed.

Lemma trace_set_secrets l s : trace (set_secrets l s) = trace s.
Proof. reflexivity. Qed.

Lemma fs_set_logfile_read l s : fs (set_logfile_read l s) = fs s.
Proof. reflexivity. Qed.

Lemma pending_set_logfile_read l s : pending (set_logfile_read l s) = pending s.
Proof. reflexivity. Qed.

Lemma buffer_set_logfile_read l s : buffer (set_logfile_read l s) = buffer s.
Proof. reflexivity. Qed.

Lemma logfile_read_set_logfile_read l s : logfile_read (set_logfile_read l s) = l.
Proof. reflexivity. Qed.

Lemma child_set_logfile_read l s : child (set_logfile_read l s) = child s.
Proof. reflexivity. Qed.

Lemma secrets_set_logfile_read l s : secrets (set_logfile_read l s) = secrets s.
Proof. reflexivity. Qed.

Lemma trace_set_logfile_read l s : trace (set_logfile_read l s) = trace s.
Proof. reflexivity. Qed.

Lemma fs_set_pty p b s : fs (set_pty p b s) = fs s.
Proof. reflexivity. Qed.

Lemma pending_set_pty p b s : pending (set_pty p b s) = p.
Proof. reflexivity. Qed.

Lemma buffer_set_pty p b s : buffer (set_pty p b s) = b.
Proof. reflexivity. Qed.

Lemma logfile_read_set_pty p b s : logfile_read (set_pty p b s) = logfile_read s.
Proof. reflexivity. Qed.

Lemma child_set_pty p b s : child (set_pty p b s) = child s.
Proof. reflexivity. Qed.

Lemma secrets_set_pty p b s : secrets (set_pty p b s) = secrets s.
Proof. reflexivity. Qed.

Lemma trace_set_pty p b s : trace (set_pty p b s) = trace s.
Proof. reflexivity. Qed.

Lemma fs_log a s : fs (log a s) = fs s.
Proof. reflexivity. Qed.

Lemma pending_log a s : pending (log a s) = pending s.
Proof. reflexivity. Qed.

Lemma buffer_log a s : buffer (log a s) = buffer s.
Proof. reflexivity. Qed.

Lemma logfile_read_log a s : logfile_read (log a s) = logfile_read s.
Proof. reflexivity. Qed.

Lemma child_log a s : child (log a s) = child s.
Proof. reflexivity. Qed.

Lemma secrets_log a s : secrets (log a s) = secrets s.
Proof. reflexivity. Qed.

Lemma trace_log a s : trace (log a s) = (trace s ++ a)%list.
Proof. reflexivity. Qed.


Create Rewrite HintDb state.
#[local] Hint Rewrite
  fs_set_fs pending_set_fs buffer_set_fs logfile_read_set_fs
  child_set_fs secrets_set_fs trace_set_fs fs_set_child
  pending_set_child buffer_set_child logfile_read_set_child child_set_child
  secrets_set_child trace_set_child fs_set_secrets pending_set_secrets
  buffer_set_secrets logfile_read_set_secrets child_set_secrets secrets_set_secrets
  trace_set_secrets fs_set_logfile_read pending_set_logfile_read buffer_set_logfile_read
  logfile_read_set_logfile_read child_set_logfile_read secrets_set_logfile_read trace_set_logfile_read
  fs_set_pty pending_set_pty buffer_set_pty logfile_read_set_pty
  child_set_pty secrets_set_pty trace_set_pty fs_log
  pending_log buffer_log logfile_read_log child_log
  secrets_log trace_log
  : state.

Ltac simpl_state := autorewrite with state in *.

(** ** The primitives, run *)

Lemma bind_ret {A B} (a : A) (k : A → M B) s : bind (ret a) k s = k a s.
Proof. reflexivity. Qed.

Lemma bind_raise {A B} e (k : A → M B) s : bind (raise e) k s = (Raise e, s).
Proof. reflexivity. Qed.

Lemma bind_get {B} (k : state → M B) s : bind get k s = k s s.
Proof. reflexivity. Qed.

Lemma bind_modify {B} f (k : unit → M B) s : bind (modify f) k s = k tt (f s).
Proof. reflexivity. Qed.

Lemma bind_isdir {B} p (k : bool → M B) s :
  bind (isdir p) k s = k (fs_isdir (fs s) p) s.
Proof. reflexivity. Qed.

Lemma bind_islink {B} p (k : bool → M B) s :
  bind (islink p) k s = k (fs_islink (fs s) p) s.
Proof. reflexivity. Qed.

Lemma bind_exists {B} p (k : bool → M B) s :
  bind (exists_ p) k s = k (fs_exists (fs s) p) s.
Proof. reflexivity. Qed.

Lemma bind_listdir {B} p (k : list string → M B) s :
  bind (listdir p) k s =
  if fs_unreadable (fs s) p then (Raise OSError, s) else k (fs_listdir (fs s) p) s.
Proof. unfold listdir, bind, get. cbn. now destruct (fs_unreadable (fs s) p). Qed.

Lemma bind_realpath {B} p (k : string → M B) s :
  bind (realpath p) k s = k (fs_realpath (fs s) p) s.
Proof. reflexivity. Qed.

Lemma bind_sendline {B} h line (k : unit → M B) s :
  bind (sendline h line) k s =
  k tt (log [SendLine line] (set_fs (shell h line (fs s)) s)).
Proof. reflexivity. Qed.

Lemma bind_send {B} text (k : unit → M B) s :
  bind (send text) k s = k tt (log [Send text] s).
Proof. reflexivity. Qed.

Lemma bind_sendcontrol {B} c (k : unit → M B) s :
  bind (sendcontrol c) k s = k tt (log [SendControl c] s).
Proof. reflexivity. Qed.

Lemma bind_terminate {B} force (k : unit → M B) s :
  bind (terminate force) k s = k tt (log [Terminate force] (set_child Terminated s)).
Proof. reflexivity. Qed.

Lemma bind_print {B} line (k : unit → M B) s :
  bind (print line) k s = k tt (log [Print line] s).
Proof. reflexivity. Qed.

Lemma bind_exitstatus {B} h (k : option Z → M B) s :
  bind (exitstatus h) k s = k (final_status h) s.
Proof. reflexivity. Qed.

Lemma bind_isalive {B} h (k : bool → M B) s :
  bind (isalive h) k s =
  k (match child s with Running => final_alive h | _ => false end) s.
Proof. reflexivity. Qed.

Create Rewrite HintDb run.
#[local] Hint Rewrite @bind_ret @bind_raise @bind_get @bind_modify @bind_isdir
  @bind_islink @bind_exists @bind_listdir @bind_realpath @bind_sendline
  @bind_send @bind_sendcontrol @bind_terminate @bind_print @bind_exitstatus
  @bind_isalive : run.

Ltac run := autorewrite with run in *.

(** ** [expect] only reads *)


Lemma expect_quiet ps s r s' : expect ps s = (r, s') → quiet s s'.
Proof.
  unfold expect.
  destruct (expect_loop ps (buffer s) (pending s)) as [[[o pend] buf] read].
  intros E.
  assert (s' = log (if logfile_read s then Echo <$> read else []) (set_pty pend buf s)) as ->.
  { destruct o; [| |destruct (eof_index ps 0)]; now inversion E. }
  unfold quiet. simpl_state. repeat split; trivial.
  eexists; split; [reflexivity|].
  destruct (logfile_read s); [apply commands_echo|reflexivity].
Qed.

Lemma search_index ps i buf f :
  search ps i buf = Some f → (i ≤ f_index f < i + length ps)%nat.
Proof.
  revert i f. induction ps as [|p ps IH]; intros i f; cbn [search length];
    [discriminate|].
  destruct (search ps (S i) buf) as [l|] eqn:El.
  - specialize (IH _ _ El).
    destruct (search_pattern p buf) as [[[b e] g]|].
    + destruct (f_start l <? b)%nat; intros E; inversion E; subst; cbn in *; lia.
    + intros E; inversion E; subst. lia.
  - destruct (search_pattern p buf) as [[[b e] g]|]; [|discriminate].
    intros E; inversion E; subst; cbn; lia.
Qed.

Lemma eof_index_bound ps i j :
  eof_index ps i = Some j → (i ≤ j < i + length ps)%nat.
Proof.
  revert i. induction ps as [|p ps IH]; intros i; cbn; [discriminate|].
  destruct p; try (intros E; apply IH in E; lia).
  intros E; inversion E; subst. lia.
Qed.

Lemma expect_loop_index ps buf pend i g pend' buf' read :
  expect_loop ps buf pend = (Matched i g, pend', buf', read) → (i < length ps)%nat.
Proof.
  revert buf read. induction pend as [|c pend IH]; intros buf read; cbn.
  - destruct (search ps 0 buf) as [f|] eqn:Ef; [|discriminate].
    intros E; inversion E; subst. apply search_index in Ef. lia.
  - destruct (search ps 0 buf) as [f|] eqn:Ef.
    + intros E; inversion E; subst. apply search_index in Ef. lia.
    + destruct c as [c|]; [|discriminate].
      destruct (expect_loop ps (buf ++ c) pend) as [[[o p'] b'] r'] eqn:El.
      intros E; inversion E; subst. eapply IH, El.
Qed.

(** The index [expect] returns is an index of its pattern list. *)
Lemma expect_index ps s i g s' :
  expect ps s = (Ok (i, g), s') → (i < length ps)%nat.
Proof.
  unfold expect.
  destruct (expect_loop ps (buffer s) (pending s)) as [[[o pend] buf] read] eqn:El.
  destruct o as [j g'| |].
  - intros E; inversion E; subst. eapply expect_loop_index, El.
  - discriminate.
  - destruct (eof_index ps 0) as [j|] eqn:Ej; [|discriminate].
    intros E; inversion E; subst. apply eof_index_bound in Ej. lia.
Qed.

(** ** What a piece of the script does and how it fails *)


Section Emits.

Context (okA : action → Prop) (okE : exn → Prop).

Lemma emits_ret {A} (a : A) : emits okA okE (ret a).
Proof.
  intros s r s' E. inversion E; subst. split; [|discriminate].
  exists []. now rewrite app_nil_r.
Qed.

Lemma emits_raise {A} e : okE e → emits okA okE (@raise A e).
Proof.
  intros He s r s' E. inversion E; subst. split.
  - exists []. now rewrite app_nil_r.
  - now intros e' [= <-].
Qed.

Lemma emits_get : emits okA okE get.
Proof.
  intros s r s' E. inversion E; subst. split; [|discriminate].
  exists []. now rewrite app_nil_r.
Qed.

Lemma emits_bind {A B} (m : M A) (k : A → M B) :
  emits okA okE m → (∀ a, emits okA okE (k a)) → emits okA okE (bind m k).
Proof.
  intros Hm Hk s r s' E. apply bind_inv in E as [(a & s1 & E1 & E2)|(e & E1 & ->)].
  - destruct (Hm _ _ _ E1) as [(t1 & T1 & F1) _].
    destruct (Hk a _ _ _ E2) as [(t2 & T2 & F2) R2].
    split; [|exact R2].
    exists (t1 ++ t2)%list. rewrite T2, T1, app_assoc. split; [reflexivity|].
    apply Forall_app; auto.
  - destruct (Hm _ _ _ E1) as [T1 R1]. split; [exact T1|].
    intros e' [= <-]. now apply R1.
Qed.

Lemma emits_try {A} (m : M A) (hd : M unit) :
  emits okA okE m → emits okA okE hd → emits okA okE (try_except_reraise m hd).
Proof.
  intros Hm Hh s r s' E. unfold try_except_reraise in E.
  destruct (m s) as [[a|e] s1] eqn:E1.
  - inversion E; subst. exact (Hm _ _ _ E1).
  - destruct (Hm _ _ _ E1) as [(t1 & T1 & F1) R1].
    destruct (hd s1) as [[u|e'] s2] eqn:E2;
      destruct (Hh _ _ _ E2) as [(t2 & T2 & F2) R2]; inversion E; subst.
    + split.
      * exists (t1 ++ t2)%list. rewrite T2, T1, app_assoc. split; [reflexivity|].
        apply Forall_app; auto.
      * intros e0 [= <-]. now apply R1.
    + split.
      * exists (t1 ++ t2)%list. rewrite T2, T1, app_assoc. split; [reflexivity|].
        apply Forall_app; auto.
      * intros e0 [= <-]. now apply R2.
Qed.

Lemma emits_log {A} (a : A) (t : list action) (f : state → state) :
  (∀ s, trace (f s) = trace s) → Forall okA t →
  emits okA okE (λ s, (Ok a, log t (f s))).
Proof.
  intros Hf Ht s r s' E. inversion E; subst. split; [|discriminate].
  exists t. simpl_state. now rewrite Hf.
Qed.

Lemma emits_query {A} (f : state → A) : emits okA okE (s <- get ;; ret (f s)).
Proof. apply emits_bind; [apply emits_get|intros; apply emits_ret]. Qed.

Lemma emits_isdir p : emits okA okE (isdir p).
Proof. apply emits_query. Qed.
Lemma emits_islink p : emits okA okE (islink p).
Proof. apply emits_query. Qed.
Lemma emits_exists p : emits okA okE (exists_ p).
Proof. apply emits_query. Qed.
Lemma emits_listdir p : okE OSError → emits okA okE (listdir p).
Proof.
  intros HE. unfold listdir. apply emits_bind; [apply emits_get|]. intros s0.
  destruct (fs_unreadable _ _); [now apply emits_raise|apply emits_ret].
Qed.
Lemma emits_realpath p : emits okA okE (realpath p).
Proof. apply emits_query. Qed.
Lemma emits_isalive h : emits okA okE (isalive h).
Proof. apply emits_query. Qed.
Lemma emits_exitstatus h : emits okA okE (exitstatus h).
Proof. apply emits_ret. Qed.

Lemma emits_sendline h line : okA (SendLine line) → emits okA okE (sendline h line).
Proof. intros H. apply (emits_log tt [SendLine line]); auto. Qed.

Lemma emits_send text : okA (Send text) → emits okA okE (send text).
Proof. intros H. apply (emits_log tt [Send text] (λ s, s)); auto. Qed.

Lemma emits_sendcontrol c : okA (SendControl c) → emits okA okE (sendcontrol c).
Proof. intros H. apply (emits_log tt [SendControl c] (λ s, s)); auto. Qed.

Lemma emits_terminate force : okA (Terminate force) → emits okA okE (terminate force).
Proof. intros H. apply (emits_log tt [Terminate force]); auto. Qed.

Lemma emits_print line : okA (Print line) → emits okA okE (print line).
Proof. intros H. apply (emits_log tt [Print line] (λ s, s)); auto. Qed.

Lemma emits_set_logfile_read b : emits okA okE (modify (set_logfile_read b)).
Proof.
  intros s r s' E. inversion E; subst. split; [|discriminate].
  exists []. simpl_state. now rewrite app_nil_r.
Qed.

Lemma emits_spawn h command args env :
  okA (Spawn command args env) → okE ExceptionPexpect →
  emits okA okE (spawn h command args env).
Proof.
  intros HA HE. unfold spawn. destruct (spawn_ok h).
  - apply (emits_log tt [Spawn command args env]); auto.
  - now apply emits_raise.
Qed.

Lemma emits_getpass prompt :
  okA (Getpass prompt) → okE EOFError → emits okA okE (getpass prompt).
Proof.
  intros HA HE. unfold getpass. apply emits_bind; [apply emits_get|].
  intros s0. destruct (secrets s0).
  - apply emits_bind; [|intros; now apply emits_raise].
    apply (emits_log tt [Getpass prompt] (λ s, s)); auto.
  - apply emits_bind; [|intros; now apply emits_ret].
    apply (emits_log tt [Getpass prompt]); auto.
Qed.

Lemma emits_environ_get h key : okE (KeyError key) → emits okA okE (environ_get h key).
Proof.
  intros HE. unfold environ_get. destruct (environ h !! key).
  - apply emits_ret.
  - now apply emits_raise.
Qed.

Lemma emits_makedirs p : okA (Makedirs p) → emits okA okE (makedirs p).
Proof.
  intros HA. unfold makedirs. apply emits_bind; [apply emits_get|]. intros s0.
  destruct (makedirs_fs _ _ _) as [[| |] f'];
    (apply emits_bind; [|intros; apply emits_ret]).
  - apply (emits_log tt [Makedirs p]); auto.
  - intros s r s' E. inversion E; subst. split; [|discriminate].
    exists []. simpl_state. now rewrite app_nil_r.
  - intros s r s' E. inversion E; subst. split; [|discriminate].
    exists []. simpl_state. now rewrite app_nil_r.
Qed.

Lemma emits_expect ps :
  (∀ text, okA (Echo text)) → okE TIMEOUT → okE EOF → emits okA okE (expect ps).
Proof.
  intros HA HT HE s r s' E. split.
  - unfold expect in E.
    destruct (expect_loop ps (buffer s) (pending s)) as [[[o pend] buf] read].
    assert (s' = log (if logfile_read s then Echo <$> read else []) (set_pty pend buf s)) as ->.
    { destruct o; [| |destruct (eof_index ps 0)]; now inversion E. }
    eexists; simpl_state; split; [reflexivity|].
    destruct (logfile_read s); [|constructor].
    clear E. induction read; cbn; constructor; auto.
  - intros e ->. unfold expect in E.
    destruct (expect_loop ps (buffer s) (pending s)) as [[[o pend] buf] read].
    destruct o; [discriminate| |destruct (eof_index ps 0); [discriminate|]];
      inversion E; subst; auto.
Qed.

End Emits.

Lemma emits_weaken {A} (okA okA' : action → Prop) (okE okE' : exn → Prop) (m : M A) :
  (∀ a, okA a → okA' a) → (∀ e, okE e → okE' e) →
  emits okA okE m → emits okA' okE' m.
Proof.
  intros HA HE Hm s r s' E. destruct (Hm _ _ _ E) as [(t & T & F) R]. split.
  - exists t. split; [exact T|]. eapply Forall_impl; eauto.
  - intros e He. apply HE, R, He.
Qed.

(** Walks through a piece of the script with the rules above; what is left
    are the conditions on the actions and exceptions met on the way. *)
Ltac emits_step :=
  first
    [ apply emits_isdir | apply emits_islink | apply emits_exists
    | apply emits_listdir | apply emits_realpath | apply emits_isalive
    | apply emits_exitstatus | apply emits_set_logfile_read
    | apply emits_expect | apply emits_sendline | apply emits_send
    | apply emits_sendcontrol | apply emits_terminate | apply emits_print
    | apply emits_spawn | apply emits_getpass | apply emits_environ_get
    | apply emits_makedirs | apply emits_try
    | apply emits_ret | apply emits_get | apply emits_raise
    | apply emits_bind; [|intros]
    | match goal with
      | |- emits _ _ (if ?b then _ else _) => destruct b
      end ].

Ltac emits_walk := repeat emits_step.


(** ** Lines 43-60, run *)

(** What [configure] comes to, the two variables being set: when
    [os.makedirs] creates the configuration directory the script goes on;
    when it raises, the script goes on only if the path is a directory. *)
Lemma configure_run h s home0 cloudsdk_config :
  environ h !! "HOME" = Some home0 →
  environ h !! "CLOUDSDK_CONFIG" = Some cloudsdk_config →
  let st := choose_settings home0
              (fs_realpath (fs s) (Path.join cloudsdk_config "../..")) in
  let d := config_dir_of st in
  configure h s =
    match makedirs_fs (String.length d) d (fs s) with
    | (Made, f') => (Ok st, log [Makedirs d] (set_fs f' s))
    | (_, f') =>
        if fs_isdir f' d then (Ok st, set_fs f' s)
        else (Raise (ValueError (config_dir_message d)), set_fs f' s)
    end.
Proof.
  intros Hh Hc st d. unfold configure, environ_get. rewrite Hh, Hc. run.
  fold st. fold d. unfold makedirs, isdir, bind, get, ret, modify, raise.
  cbv beta iota.
  destruct (makedirs_fs (String.length d) d (fs s)) as [[| |] f']; cbv beta iota;
    simpl_state; try reflexivity; now destruct (fs_isdir f' d).
Qed.

(** A successful [os.mkdir] leaves a directory. *)
Lemma mkdir_Made path f f' :
  mkdir path f = (Made, f') → f' = with_new_dir path f ∧ fs_isdir f' path = true.
Proof.
  unfold mkdir. destruct (_ || _); [discriminate|].
  destruct (_ && _); [discriminate|].
  destruct (fs_creatable f path); [|discriminate].
  intros E. inversion E; subst. split; [reflexivity|].
  cbn. now rewrite String.eqb_refl.
Qed.

(** A successful [os.makedirs] leaves a directory, unless the name ends with
    the component [.]. *)
Lemma makedirs_fs_Made fuel name f f' :
  snd (Path.split name) ≠ "" → snd (Path.split name) ≠ "." →
  makedirs_fs fuel name f = (Made, f') → fs_isdir f' name = true.
Proof.
  intros N1 N2. destruct fuel as [|fuel]; cbn [makedirs_fs];
    apply String.eqb_neq in N1; rewrite N1;
    destruct (Path.split name) as [head tail] eqn:Es; cbn [snd] in *.
  - destruct (_ && _ && _); intros E; now apply mkdir_Made in E.
  - destruct (_ && _ && _); [|intros E; now apply mkdir_Made in E].
    destruct (makedirs_fs fuel head f) as [[| |] f1]; [| |discriminate];
      (apply String.eqb_neq in N2; rewrite N2; intros E; now apply mkdir_Made in E).
Qed.

Lemma length_app_string (a b : string) :
  String.length (a ++ b) = (String.length a + String.length b)%nat.
Proof.
  induction a as [|c a IH]; [reflexivity|].
  change (S (String.length (a ++ b)) = S (String.length a + String.length b)).
  now rewrite IH.
Qed.

Lemma rsplit_slash_app a b :
  Str.rsplit_slash b = None →
  Str.rsplit_slash (a ++ b) =
    match Str.rsplit_slash a with
    | Some (h, t) => Some (h, t ++ b)
    | None => None
    end.
Proof.
  intros Hb. induction a as [|c a IH]; [exact Hb|].
  change (Str.rsplit_slash (String c (a ++ b)) =
          match Str.rsplit_slash (String c a) with
          | Some (h, t) => Some (h, t ++ b)
          | None => None
          end).
  cbn [Str.rsplit_slash]. rewrite IH.
  destruct (Str.rsplit_slash a) as [[h t]|]; [reflexivity|].
  now destruct (Ascii.eqb c "/").
Qed.

(** The last component of a path that ends with [Google]. *)
Lemma split_tail_Google x : ∃ t, snd (Path.split (x ++ "Google")) = t ++ "Google".
Proof.
  unfold Path.split. rewrite rsplit_slash_app by reflexivity.
  destruct (Str.rsplit_slash x) as [[h t]|]; [|now exists x].
  exists t. now destruct (String.eqb (Str.rstrip_slash h) "").
Qed.

Lemma append_assoc_string (a b c : string) : (a ++ b) ++ c = a ++ (b ++ c).
Proof.
  induction a as [|x a IH]; [reflexivity|].
  change (String x ((a ++ b) ++ c) = String x (a ++ (b ++ c))). now rewrite IH.
Qed.

Lemma config_dir_tail st :
  snd (Path.split (config_dir_of st)) ≠ "" ∧ snd (Path.split (config_dir_of st)) ≠ ".".
Proof.
  assert (H : ∃ x, config_dir_of st = x ++ "Google").
  { unfold config_dir_of, Path.join3. generalize (Path.join (home st) ".config").
    intros a. unfold Path.join. cbn [Str.startswith Ascii.eqb Bool.eqb].
    destruct (_ || _); [now exists a|].
    exists (a ++ "/"). now rewrite append_assoc_string. }
  destruct H as [x ->]. destruct (split_tail_Google x) as [t ->].
  split; intros E; apply (f_equal String.length) in E;
    rewrite length_app_string in E; cbn in E; lia.
Qed.

(** ** [os.makedirs] on the file system *)

Lemma rsplit_slash_eq p h t : Str.rsplit_slash p = Some (h, t) → p = h ++ t.
Proof.
  revert h t. induction p as [|c p IH]; intros h t; cbn [Str.rsplit_slash];
    [discriminate|].
  destruct (Str.rsplit_slash p) as [[h' t']|].
  - intros [= <- <-]. now rewrite (IH h' t' eq_refl) at 1.
  - destruct (Ascii.eqb c "/") eqn:Ec; [|discriminate].
    intros [= <- <-]. apply Ascii.eqb_eq in Ec. now subst c.
Qed.

Lemma rstrip_slash_length x :
  (String.length (Str.rstrip_slash x) ≤ String.length x)%nat.
Proof.
  induction x as [|c x IH]; cbn [Str.rstrip_slash]; [reflexivity|].
  destruct (Str.rstrip_slash x) as [|c' r]; cbn [String.length] in *;
    [destruct (Ascii.eqb c "/"); cbn [String.length]; lia|lia].
Qed.

Lemma split_lengths p :
  (String.length (fst (Path.split p)) + String.length (snd (Path.split p))
   ≤ String.length p)%nat.
Proof.
  unfold Path.split. destruct (Str.rsplit_slash p) as [[h t]|] eqn:E; cbn; [|lia].
  apply rsplit_slash_eq in E. subst p. rewrite length_app_string.
  pose proof (rstrip_slash_length h).
  destruct (String.eqb _ ""); cbn; lia.
Qed.

(** The head [os.makedirs] recurses on is shorter than the name. *)
Lemma makedirs_head_shorter name :
  let ht := if String.eqb (snd (Path.split name)) ""
            then Path.split (fst (Path.split name)) else Path.split name in
  snd ht ≠ "" → (String.length (fst ht) < String.length name)%nat.
Proof.
  cbv zeta. pose proof (split_lengths name) as L1.
  destruct (String.eqb (snd (Path.split name)) "").
  - pose proof (split_lengths (fst (Path.split name))) as L2. intros N.
    destruct (snd (Path.split (fst (Path.split name)))); [now destruct N|].
    cbn [String.length] in L2. lia.
  - intros N. destruct (snd (Path.split name)); [now destruct N|].
    cbn [String.length] in L1. lia.
Qed.




Lemma makedirs_fs_S fuel name f :
  makedirs_fs (S fuel) name f =
    let (head, tail) :=
      if String.eqb (snd (Path.split name)) "" then Path.split (fst (Path.split name))
      else Path.split name in
    if negb (String.eqb head "") && negb (String.eqb tail "") && negb (fs_exists f head)
    then match makedirs_fs fuel head f with
         | (Failed, f1) => (Failed, f1)
         | (_, f1) => if String.eqb tail "." then (Made, f1) else mkdir name f1
         end
    else mkdir name f.
Proof. reflexivity. Qed.

(** The recursion of [os.makedirs(name)] is over before the fuel is: with
    the length of [name] as fuel, more fuel changes nothing. *)
Lemma makedirs_fs_fuel fuel name f :
  (String.length name ≤ fuel)%nat →
  makedirs_fs (S fuel) name f = makedirs_fs fuel name f.
Proof.
  revert name f. induction fuel as [|fuel IH]; intros name f L.
  - destruct name; [reflexivity|cbn in L; lia].
  - rewrite (makedirs_fs_S (S fuel)), (makedirs_fs_S fuel).
    pose proof (makedirs_head_shorter name) as Hs. cbv zeta in Hs.
    destruct (if String.eqb (snd (Path.split name)) ""
              then Path.split (fst (Path.split name)) else Path.split name)
      as [head tail]; cbn [fst snd] in Hs.
    destruct (negb (String.eqb head "") && negb (String.eqb tail "") &&
              negb (fs_exists f head)) eqn:B; [|reflexivity].
    assert (Nt : tail ≠ "").
    { intros ->. rewrite String.eqb_refl in B. cbn in B.
      now rewrite andb_false_r in B. }
    specialize (Hs Nt). now rewrite IH by lia.
Qed.

Lemma makedirs_fs_enough fuel name f :
  (String.length name ≤ fuel)%nat →
  makedirs_fs fuel name f = makedirs_fs (String.length name) name f.
Proof.
  induction 1 as [|fuel L IH]; [reflexivity|].
  now rewrite makedirs_fs_fuel.
Qed.


(** After [configure] the configuration directory is a directory, and
    nothing but [os.makedirs] has happened. *)
Lemma configure_Ok h s st s1 :
  configure h s = (Ok st, s1) →
  fs_isdir (fs s1) (config_dir_of st) = true ∧
  child s1 = child s ∧ secrets s1 = secrets s ∧
  ∃ f', s1 = set_fs f' s ∨ s1 = log [Makedirs (config_dir_of st)] (set_fs f' s).
Proof.
  intros E.
  destruct (environ h !! "HOME") as [home0|] eqn:Hh;
    [|unfold configure, environ_get in E; rewrite Hh in E; discriminate].
  destruct (environ h !! "CLOUDSDK_CONFIG") as [c|] eqn:Hc;
    [|unfold configure, environ_get in E; rewrite Hh, Hc in E; discriminate].
  rewrite (configure_run _ _ _ _ Hh Hc) in E. cbv zeta in E.
  destruct (makedirs_fs _ _ _) as [[| |] f'] eqn:Em in E.
  - inversion E; subst. simpl_state. repeat split; eauto.
    destruct (config_dir_tail (choose_settings home0
                (fs_realpath (fs s) (Path.join c "../..")))) as [N1 N2].
    exact (makedirs_fs_Made _ _ _ _ N1 N2 Em).
  - destruct (fs_isdir f' _) eqn:Ed in E; inversion E; subst. simpl_state.
    repeat split; eauto.
  - destruct (fs_isdir f' _) eqn:Ed in E; inversion E; subst. simpl_state.
    repeat split; eauto.
Qed.

(** ** What happened between two states *)


Lemma did_refl s : did s s [].
Proof. exists []. now rewrite app_nil_r. Qed.

Lemma did_trans s s1 s2 a b : did s s1 a → did s1 s2 b → did s s2 (a ++ b).
Proof.
  intros (t1 & T1 & C1) (t2 & T2 & C2). exists (t1 ++ t2)%list.
  rewrite T2, T1, app_assoc, commands_app, C1, C2. auto.
Qed.

Lemma did_quiet s s' : quiet s s' → did s s' [].
Proof. intros (_ & _ & _ & _ & H). exact H. Qed.

Lemma did_log s s1 cs a (f : state → state) :
  (∀ x, trace (f x) = trace x) → did s s1 cs →
  did s (log a (f s1)) (cs ++ commands a).
Proof.
  intros Hf (t & T & C). exists (t ++ a)%list. simpl_state.
  rewrite Hf, T, app_assoc, commands_app, C. auto.
Qed.


Lemma progress_start s : progress s s (child s) (logfile_read s) [].
Proof. split; auto using did_refl. Qed.

Lemma progress_quiet s0 s s' c l cs :
  progress s0 s c l cs → quiet s s' → progress s0 s' c l cs.
Proof.
  intros [C S L D] (_ & C' & S' & L' & D'). split; try congruence.
  rewrite <- (app_nil_r cs). eapply did_trans; eauto.
Qed.

Lemma progress_sendline h line s0 s c l cs :
  progress s0 s c l cs →
  progress s0 (log [SendLine line] (set_fs (shell h line (fs s)) s)) c l
    (cs ++ [SendLine line]).
Proof.
  intros [C S L D]. split; simpl_state; auto.
  exact (did_log s0 s cs [SendLine line] (set_fs _) (λ _, eq_refl) D).
Qed.

Lemma progress_log a s0 s c l cs :
  progress s0 s c l cs → progress s0 (log a s) c l (cs ++ commands a).
Proof.
  intros [C S L D]. split; simpl_state; auto.
  exact (did_log s0 s cs a (λ x, x) (λ _, eq_refl) D).
Qed.

(** Inverts one [expect] at the head of a run. *)
Ltac inv_expect E x s1 E1 Q :=
  apply bind_inv in E as [(x & s1 & E1 & E)|(? & E1 & ?)];
  [pose proof (expect_quiet _ _ _ _ E1) as Q | try discriminate].

(** ** Lines 67-91, run *)


Lemma open_session_Ok h st m s p s2 :
  open_session h st m s = (Ok p, s2) →
  p = prompt_of h ∧
  progress s s2 Running (DEBUG h || logfile_read s) (session_opened h st m).
Proof.
  unfold open_session, spawn. intros E.
  destruct (spawn_ok h); [|discriminate]. run.
  assert (E0 : ∃ sa,
     progress s sa Running (DEBUG h || logfile_read s)
       [Spawn "/bin/bash" ["--noediting"] (child_env st)] ∧
     (sendline h (export_ps1 (prompt_of h)) ;;;
      expect [Lit (prompt_of h)] ;;; expect [Lit (prompt_of h)] ;;;
      sendline h (cleanup_command m) ;;; expect [Lit "pkill"] ;;;
      expect [Lit (prompt_of h)] ;;; ret (prompt_of h)) sa = (Ok p, s2)).
  { pose proof (progress_start s) as P0.
    assert (P1 : progress s (log [Spawn "/bin/bash" ["--noediting"] (child_env st)]
                    (set_child Running s)) Running (logfile_read s)
                    [Spawn "/bin/bash" ["--noediting"] (child_env st)]).
    { split; simpl_state; auto.
      exact (did_log s s [] [Spawn "/bin/bash" ["--noediting"] (child_env st)]
               (set_child Running) (λ _, eq_refl) (did_refl s)). }
    destruct (DEBUG h); run; eexists; split; try exact E; cbn [orb]; [|exact P1].
    destruct P1 as [C S L (t & T & D)]. split; simpl_state; auto.
    exists t. now simpl_state. }
  clear E. destruct E0 as (sa & Pa & E). run.
  apply (progress_sendline h (export_ps1 (prompt_of h))) in Pa.
  inv_expect E x1 s1 E1 Q1. apply (progress_quiet _ _ _ _ _ _ Pa) in Q1.
  inv_expect E x2 s2' E2 Q2. apply (progress_quiet _ _ _ _ _ _ Q1) in Q2. run.
  apply (progress_sendline h (cleanup_command m)) in Q2.
  inv_expect E x3 s3 E3 Q3. apply (progress_quiet _ _ _ _ _ _ Q2) in Q3.
  inv_expect E x4 s4 E4 Q4. apply (progress_quiet _ _ _ _ _ _ Q3) in Q4.
  inversion E; subst. split; [reflexivity|exact Q4].
Qed.

(** ** The guard of lines 35-42 *)


(** ** Lines 93-102, run *)

Lemma check_mountpoint_run m s :
  check_mountpoint m s =
    match verdict (fs s) m with
    | Some e => (Raise e, s)
    | None => (Ok tt, s)
    end.
Proof.
  unfold check_mountpoint, verdict.
  unfold islink, isdir, listdir, exists_, bind, get, ret, raise. cbv beta iota.
  destruct (fs_islink (fs s) m); [reflexivity|].
  destruct (fs_isdir (fs s) m) eqn:Ed; cbn [andb negb]; cbv beta iota.
  - destruct (fs_unreadable (fs s) m); [reflexivity|]. cbv beta iota.
    destruct (bool_decide (fs_listdir (fs s) m = [])); cbn [negb]; cbv beta iota;
      rewrite ?Ed; reflexivity.
  - rewrite ?Ed. cbn [andb negb]. cbv beta iota.
    destruct (fs_exists (fs s) m); reflexivity.
Qed.

Lemma validate_run m s :
  validate m s =
    match verdict (fs s) m with
    | Some e => (Raise e, log [Terminate true] (set_child Terminated s))
    | None => (Ok tt, s)
    end.
Proof.
  unfold validate, try_except_reraise. rewrite check_mountpoint_run.
  destruct (verdict (fs s) m); reflexivity.
Qed.

Lemma verdict_messages f m msg :
  verdict f m = Some (ValueError msg) → msg ∈ validation_messages.
Proof.
  unfold verdict, validation_messages.
  destruct (fs_islink f m); [intros [= <-]; apply elem_of_cons; now left|].
  destruct (fs_isdir f m).
  - destruct (fs_unreadable f m); [discriminate|].
    destruct (negb _); [|discriminate].
    intros [= <-]. apply elem_of_cons; right; apply elem_of_cons; now left.
  - destruct (fs_exists f m); [|discriminate].
    intros [= <-]. do 2 (apply elem_of_cons; right). apply elem_of_cons. now left.
Qed.

(** The verdict is a [ValueError] or the [OSError] of [os.listdir]. *)
Lemma verdict_kind f m e :
  verdict f m = Some e → e = OSError ∨ ∃ msg, e = ValueError msg.
Proof.
  unfold verdict.
  repeat match goal with
         | |- context [if ?b then _ else _] => destruct b
         end; intros [= <-]; eauto.
Qed.

(** ** Lines 104-118, run *)

Lemma launch_Ok h st m p s s3 :
  launch h st m p s = (Ok tt, s3) →
  progress s s3 (child s) (logfile_read s)
    [SendLine (success_watcher m); SendLine (drive_command st m)].
Proof.
  unfold launch. intros E. run.
  pose proof (progress_sendline h (success_watcher m) _ _ _ _ _ (progress_start s)) as P.
  inv_expect E x s1 E1 Q. apply (progress_quiet _ _ _ _ _ _ P) in Q.
  apply (progress_sendline h (drive_command st m)) in Q.
  unfold sendline, modify in E. inversion E; subst. exact Q.
Qed.

(** ** The script in pieces *)

Lemma mount_short_circuit h mountpoint force_remount s :
  short_circuit h mountpoint force_remount s = true →
  mount h mountpoint force_remount s =
    (Ok tt, log [Print (already_mounted_message (expanduser h mountpoint))] s).
Proof.
  unfold short_circuit, mount. intros G. run. now rewrite G.
Qed.

Lemma mount_from_validation h mountpoint force_remount s :
  short_circuit h mountpoint force_remount s = false →
  let m := expanduser h mountpoint in
  mount h mountpoint force_remount s =
    (sp <- until_validation h m ;;
     validate m ;;;
     launch h (fst sp) m (snd sp) ;;;
     s0 <- get ;;
     await_outcome (S (length (secrets s0))) h (snd sp) ;;;
     handoff h m) s.
Proof.
  intros G m. unfold short_circuit in G. unfold mount. run. rewrite G. fold m.
  unfold until_validation, bind, ret.
  destruct (configure h s) as [[st|e] s1]; [|reflexivity].
  destruct (open_session h st m s1) as [[p|e] s2]; reflexivity.
Qed.

Lemma mount_from_loop h mountpoint force_remount s :
  short_circuit h mountpoint force_remount s = false →
  let m := expanduser h mountpoint in
  mount h mountpoint force_remount s =
    (sp <- until_loop h m ;;
     s0 <- get ;;
     await_outcome (S (length (secrets s0))) h (snd sp) ;;;
     handoff h m) s.
Proof.
  intros G m. rewrite (mount_from_validation _ _ _ _ G). fold m.
  unfold until_loop, bind, ret.
  destruct (until_validation h m s) as [[sp|e] s2]; [|reflexivity].
  destruct (validate m s2) as [[u|e] s2']; [|reflexivity].
  destruct (launch h (fst sp) m (snd sp) s2') as [[u'|e] s3]; reflexivity.
Qed.

Lemma until_validation_Ok h m s st p s2 :
  until_validation h m s = (Ok (st, p), s2) →
  p = prompt_of h ∧
  ∃ pre, Forall is_makedirs pre ∧
    progress s s2 Running (DEBUG h || logfile_read s) (pre ++ session_opened h st m).
Proof.
  unfold until_validation. intros E.
  apply bind_inv in E as [(st' & s1 & E1 & E)|(? & ? & ?)]; [|discriminate].
  apply bind_inv in E as [(p' & s2' & E2 & E)|(? & ? & ?)]; [|discriminate].
  inversion E; subst.
  apply open_session_Ok in E2 as [-> [C S L D]]. split; [reflexivity|].
  apply configure_Ok in E1 as (_ & C1 & S1 & f' & [->| ->]).
  - exists []. split; [constructor|]. unfold did in D. simpl_state.
    now split.
  - exists [Makedirs (config_dir_of st)]. split; [repeat constructor|].
    split; simpl_state; auto.
    eapply did_trans; [|exact D].
    exact (did_log s s [] [Makedirs (config_dir_of st)] (set_fs _) (λ _, eq_refl) (did_refl s)).
Qed.

Lemma verdict_of_defect f m :
  fs_islink f m = true ∨
  (fs_isdir f m = true ∧ fs_unreadable f m = false ∧ fs_listdir f m ≠ []) ∨
  (fs_isdir f m = false ∧ fs_exists f m = true) →
  ∃ msg, verdict f m = Some (ValueError msg).
Proof.
  unfold verdict. intros [L|[(D & U & N)|[D X]]].
  - rewrite L. eauto.
  - destruct (fs_islink f m); [eauto|]. rewrite D, U.
    rewrite bool_decide_eq_false_2 by exact N. cbn. eauto.
  - destruct (fs_islink f m); [eauto|]. rewrite D, X. eauto.
Qed.

(** ** Validation of the mountpoint *)

(** C4, as amended.  For every run that is not short-circuited as already
    mounted and that reaches the validation of lines 93-102, the script
    created at most the configuration directory, spawned bash and sent the
    prompt and clean-up lines up to then, and:
    - if the expanded mountpoint then is a symlink, or a directory in which
      [os.listdir] finds an entry, or something that exists without being a
      directory, [mount] raises a [ValueError] with one of the three
      validation messages;
    - if it is a directory (not a symlink) that [os.listdir] cannot read,
      [mount] raises the [OSError] of [os.listdir].
    In both cases the session is terminated with [force=True] and nothing
    else happens after that, so the drive binary was never launched. *)
Theorem mount_rejects_bad_mountpoint
    (h : host) (mountpoint : string) (force_remount : bool)
    (s s2 : state) (st : settings) (p : string) :
  let m := expanduser h mountpoint in
  short_circuit h mountpoint force_remount s = false →
  until_validation h m s = (Ok (st, p), s2) →
  (fs_islink (fs s2) m = true ∨
   (fs_isdir (fs s2) m = true ∧ fs_unreadable (fs s2) m = false ∧
    fs_listdir (fs s2) m ≠ []) ∨
   (fs_isdir (fs s2) m = false ∧ fs_exists (fs s2) m = true) →
   ∃ msg,
     msg ∈ validation_messages ∧
     mount h mountpoint force_remount s =
       (Raise (ValueError msg), log [Terminate true] (set_child Terminated s2))) ∧
  (fs_islink (fs s2) m = false ∧ fs_isdir (fs s2) m = true ∧
   fs_unreadable (fs s2) m = true →
   mount h mountpoint force_remount s =
     (Raise OSError, log [Terminate true] (set_child Terminated s2))) ∧
  ∃ pre, Forall is_makedirs pre ∧ did s s2 (pre ++ session_opened h st m).
Proof.
  intros m G E.
  assert (R : ∀ e, verdict (fs s2) m = Some e →
              mount h mountpoint force_remount s =
                (Raise e, log [Terminate true] (set_child Terminated s2))).
  { intros e V. rewrite (mount_from_validation _ _ _ _ G). fold m.
    rewrite (bind_Ok _ _ _ _ _ E).
    apply bind_Raise. rewrite validate_run, V. reflexivity. }
  split; [|split].
  - intros V. apply verdict_of_defect in V as [msg V]. exists msg.
    split; [eapply verdict_messages, V|exact (R _ V)].
  - intros (L & D & U). apply R. unfold verdict. now rewrite L, D, U.
  - apply until_validation_Ok in E as (_ & pre & F & [_ _ _ D]). eauto.
Qed.

(** The theorem on a mountpoint that is a symlink, and on one that
    [os.listdir] cannot read. *)
Lemma mount_rejects_bad_mountpoint_witness :
  (∃ msg,
     msg ∈ validation_messages ∧
     mount Sim.colab Sim.drive false Sim.symlink_start =
       (Raise (ValueError msg),
        log [Terminate true] (set_child Terminated Sim.symlink_at_validation))) ∧
  mount Sim.colab Sim.drive false Sim.unreadable =
    (Raise OSError,
     log [Terminate true] (set_child Terminated Sim.unreadable_at_validation)) ∧
  ∃ pre, Forall is_makedirs pre ∧
    did Sim.symlink_start Sim.symlink_at_validation
      (pre ++ session_opened Sim.colab Sim.settings_v4 Sim.drive).
Proof.
  destruct (mount_rejects_bad_mountpoint Sim.colab Sim.drive false
              Sim.symlink_start Sim.symlink_at_validation Sim.settings_v4 Sim.PS1)
    as (V & _ & D); [vm_compute; reflexivity..|].
  destruct (mount_rejects_bad_mountpoint Sim.colab Sim.drive false
              Sim.unreadable Sim.unreadable_at_validation Sim.settings_v4 Sim.PS1)
    as (_ & U & _); [vm_compute; reflexivity..|].
  split; [|split].
  - apply V. left. vm_compute. reflexivity.
  - apply U. vm_compute. auto.
  - exact D.
Defined.

(** C4, the claim as stated fails: a mountpoint that is an existing directory
    with an entry in it, [My Drive], is not rejected when [force_remount] is
    false; [mount] returns normally and spawns nothing. *)
Lemma mounted_directory_is_not_rejected :
  fs_isdir (fs Sim.mounted_start) Sim.drive = true ∧
  fs_listdir (fs Sim.mounted_start) Sim.drive ≠ [] ∧
  mount Sim.colab Sim.drive false Sim.mounted_start =
    (Ok tt, log [Print (already_mounted_message Sim.drive)] Sim.mounted_start).
Proof.
  split; [reflexivity|]. split; [discriminate|]. vm_compute. reflexivity.
Qed.


(** ** Which error is which *)

Lemma drop_app_string (a b : string) : Str.drop (String.length a) (a ++ b) = b.
Proof. induction a as [|c a IH]; [now destruct b|exact IH]. Qed.

(** The message of line 60 is none of the validation messages, whatever the
    directory: it ends differently. *)
Lemma config_dir_message_not_validation d :
  config_dir_message d ∉ validation_messages.
Proof.
  unfold validation_messages, config_dir_message. intros H.
  pose proof (drop_app_string d " must be a directory if present") as D.
  pose proof (length_app_string d " must be a directory if present") as L.
  repeat (apply elem_of_cons in H as [H|H];
    [rewrite H in D, L; cbn in L;
     match type of L with
     | ?n = (_ + ?j)%nat =>
         let k := eval vm_compute in (n - j)%nat in
         replace (String.length d) with k in D by lia
     end;
     vm_compute in D; discriminate|]).
  now apply elem_of_nil in H.
Qed.









(** ** Lines 135-141, run *)

(** What [handoff] comes to when the two [expect] of lines 136 and 138 find
    their patterns. *)
Lemma handoff_run h m s4 x s5 y s6 :
  (sendcontrol "z" ;;; expect [Lit "Stopped"]) s4 = (Ok x, s5) →
  (sendline h "bg; disown; exit" ;;; expect [P_EOF]) s5 = (Ok y, s6) →
  handoff h m s4 =
    if match child s6 with Running => final_alive h | _ => false end
    then (Raise AssertionError, s6)
    else if bool_decide (final_status h = Some 0%Z)
         then (Ok tt, log [Print (mounted_message m)] s6)
         else (Raise AssertionError, s6).
Proof.
  intros E1 E2. unfold handoff. run.
  rewrite (bind_Ok _ _ _ _ _ E1). run.
  rewrite (bind_Ok _ _ _ _ _ E2). run.
  destruct (match child s6 with Running => final_alive h | _ => false end); run;
    [reflexivity|].
  destruct (bool_decide (final_status h = Some 0%Z)); run; reflexivity.
Qed.

Lemma handoff_did h s4 x s5 y s6 :
  (sendcontrol "z" ;;; expect [Lit "Stopped"]) s4 = (Ok x, s5) →
  (sendline h "bg; disown; exit" ;;; expect [P_EOF]) s5 = (Ok y, s6) →
  progress s4 s6 (child s4) (logfile_read s4)
    [SendControl "z"; SendLine "bg; disown; exit"].
Proof.
  intros E1 E2. run.
  pose proof (progress_log [SendControl "z"] _ _ _ _ _ (progress_start s4)) as P.
  apply expect_quiet in E1. apply (progress_quiet _ _ _ _ _ _ P) in E1.
  apply (progress_sendline h "bg; disown; exit") in E1.
  apply expect_quiet in E2. exact (progress_quiet _ _ _ _ _ _ E1 E2).
Qed.

(** ** The success path *)

(** C1, as amended.  For every run of [mount] that reaches the loop and in
    which the first [expect] of the loop finds the success marker (no
    authorization), and in which the shell then confirms the stopped job,
    closes its output after [bg; disown; exit] and has exited with status 0:
    [mount] returns normally, and from the loop on it did exactly this, in
    this order: control-Z, the line [bg; disown; exit], the message
    "Mounted at" with the expanded mountpoint. *)
Theorem mount_succeeds_without_authorization
    (h : host) (mountpoint : string) (force_remount : bool)
    (s s3 s4 s5 s6 : state) (st : settings) (p g : string) (x y : nat * string) :
  let m := expanduser h mountpoint in
  short_circuit h mountpoint force_remount s = false →
  until_loop h m s = (Ok (st, p), s3) →
  expect [Lit success; Lit p; AuthUrlRe] s3 = (Ok (0%nat, g), s4) →
  (sendcontrol "z" ;;; expect [Lit "Stopped"]) s4 = (Ok x, s5) →
  (sendline h "bg; disown; exit" ;;; expect [P_EOF]) s5 = (Ok y, s6) →
  final_alive h = false →
  final_status h = Some 0%Z →
  mount h mountpoint force_remount s =
    (Ok tt, log [Print (mounted_message m)] s6) ∧
  did s3 (log [Print (mounted_message m)] s6)
    [SendControl "z"; SendLine "bg; disown; exit"; Print (mounted_message m)].
Proof.
  intros m G E3 E4 E5 E6 Ha Hs. split.
  - rewrite (mount_from_loop _ _ _ _ G). fold m.
    rewrite (bind_Ok _ _ _ _ _ E3). run. cbn [snd await_outcome].
    rewrite bind_assoc, (bind_Ok _ _ _ _ _ E4). cbn [fst]. run.
    rewrite (handoff_run _ _ _ _ _ _ _ E5 E6), Ha, Hs.
    rewrite bool_decide_eq_true_2 by reflexivity. now destruct (child s6).
  - pose proof (handoff_did _ _ _ _ _ _ E5 E6) as P.
    apply expect_quiet in E4.
    pose proof (progress_quiet _ _ _ _ _ _ (progress_start s3) E4) as P4.
    destruct P4 as [_ _ _ D4]. destruct P as [_ _ _ D].
    pose proof (did_trans _ _ _ _ _ D4 D) as D6.
    exact (did_log s3 s6 _ [Print (mounted_message m)] (λ z, z) (λ _, eq_refl) D6).
Qed.

Lemma mount_succeeds_without_authorization_witness :
  mount Sim.colab Sim.drive false Sim.smooth =
    (Ok tt, log [Print (mounted_message (expanduser Sim.colab Sim.drive))]
              Sim.smooth_closed) ∧
  did Sim.smooth_at_loop
    (log [Print (mounted_message (expanduser Sim.colab Sim.drive))] Sim.smooth_closed)
    [SendControl "z"; SendLine "bg; disown; exit";
     Print (mounted_message (expanduser Sim.colab Sim.drive))].
Proof.
  apply (mount_succeeds_without_authorization Sim.colab Sim.drive false
           Sim.smooth Sim.smooth_at_loop Sim.smooth_after_success
           Sim.smooth_stopped Sim.smooth_closed Sim.settings_v4 Sim.PS1 ""
           (0%nat, "") (0%nat, ""));
    vm_compute; reflexivity.
Defined.

(** C1, the claim as stated fails: the success marker comes right after the
    launch, but the shell never reports the stopped job; the run ends with
    pexpect's [TIMEOUT] after control-Z, and [bg; disown; exit] is not sent. *)
Lemma success_marker_alone_is_not_enough :
  fst (expect [Lit success; Lit Sim.PS1; AuthUrlRe]
         (snd (until_loop Sim.colab Sim.drive Sim.silent_after_success))) =
    Ok (0%nat, "") ∧
  fst (mount Sim.colab Sim.drive false Sim.silent_after_success) = Raise TIMEOUT ∧
  commands (trace (snd (mount Sim.colab Sim.drive false Sim.silent_after_success))) =
    [ Makedirs "/root/.config/Google";
      Spawn "/bin/bash" ["--noediting"] (child_env Sim.settings_v4);
      SendLine (export_ps1 Sim.PS1);
      SendLine (cleanup_command Sim.drive);
      SendLine (success_watcher Sim.drive);
      SendLine (drive_command Sim.settings_v4 Sim.drive);
      SendControl "z" ].
Proof. repeat split; vm_compute; reflexivity. Qed.

(** ** The authorization round *)

Lemma getpass_Ok prompt s code s' :
  getpass prompt s = (Ok code, s') →
  ∃ rest, secrets s = code :: rest ∧
          s' = log [Getpass prompt] (set_secrets rest s).
Proof.
  unfold getpass. run. destruct (secrets s) as [|c rest]; run; [discriminate|].
  intros E. inversion E; subst. eauto.
Qed.

Lemma startswith_app (a b : string) : Str.startswith a (a ++ b) = true.
Proof.
  induction a as [|c a IH]; [reflexivity|].
  change (Str.startswith (String c a) (String c (a ++ b)) = true).
  cbn [Str.startswith]. now rewrite Ascii.eqb_refl.
Qed.

Lemma getpass_prompts_app t u :
  getpass_prompts (t ++ u) = (getpass_prompts t ++ getpass_prompts u)%list.
Proof.
  induction t as [|a t IH]; [reflexivity|].
  destruct a; cbn; rewrite ?IH; reflexivity.
Qed.

Lemma getpass_prompts_commands t : getpass_prompts (commands t) = getpass_prompts t.
Proof. induction t as [|a t IH]; [reflexivity|]. destruct a; cbn; now rewrite ?IH. Qed.

Lemma getpass_prompts_none t : Forall not_getpass t → getpass_prompts t = [].
Proof.
  induction 1 as [|a t Ha _ IH]; [reflexivity|].
  destruct a; cbn in *; auto. contradiction.
Qed.

Lemma until_loop_no_getpass h m : emits not_getpass (λ _, True) (until_loop h m).
Proof.
  unfold until_loop, until_validation, configure, open_session, validate,
    check_mountpoint, launch.
  emits_walk; intros; exact I.
Qed.

Lemma handoff_starts_with_suspend h m :
  emits not_getpass (λ _, True) (handoff h m) ∧
  ∀ s r s', handoff h m s = (r, s') →
    ∃ t, trace s' = (trace s ++ SendControl "z" :: t)%list.
Proof.
  split.
  - unfold handoff. emits_walk; intros; exact I.
  - intros s r s' E. unfold handoff in E. run.
    assert (Em : emits (λ _, True) (λ _, True)
      (expect [Lit "Stopped"] ;;; sendline h "bg; disown; exit" ;;;
       expect [P_EOF] ;;; alive <- isalive h ;;
       (if alive then raise AssertionError else ret tt) ;;;
       status <- exitstatus h ;;
       (if bool_decide (status = Some 0%Z) then ret tt else raise AssertionError) ;;;
       print (mounted_message m))) by (emits_walk; intros; exact I).
    destruct (Em _ _ _ E) as [(t & T & _) _]. exists t.
    rewrite T. simpl_state. now rewrite <- app_assoc.
Qed.

(** C2.  For every run of [mount] that reaches the loop, in which the first
    [expect] of the loop finds the authorization-URL pattern, the user types
    a code, and the next [expect] finds the success marker: [getpass] is
    called exactly once in the whole run, with a message that starts with
    the captured text (the URL line); between the two [expect] the script
    does this and nothing else: call [getpass], send the code followed by a
    line feed; and the run goes on with lines 135-141, control-Z first. *)
Theorem mount_authorizes_once
    (h : host) (mountpoint : string) (force_remount : bool)
    (s s3 s4 s4' s5 : state) (st : settings) (p url code g : string) :
  let m := expanduser h mountpoint in
  short_circuit h mountpoint force_remount s = false →
  until_loop h m s = (Ok (st, p), s3) →
  expect [Lit success; Lit p; AuthUrlRe] s3 = (Ok (2%nat, url), s4) →
  getpass (auth_prompt url) s4 = (Ok code, s4') →
  (send (code ++ Str.LF) ;;;
   expect [Lit success; Lit (auth_prompt url); AuthUrlRe]) s4' = (Ok (0%nat, g), s5) →
  mount h mountpoint force_remount s = handoff h m s5 ∧
  Str.startswith url (auth_prompt url) = true ∧
  did s3 s5 [Getpass (auth_prompt url); Send (code ++ Str.LF)] ∧
  ∀ r s', mount h mountpoint force_remount s = (r, s') →
    getpass_prompts (trace s') = (getpass_prompts (trace s) ++ [auth_prompt url])%list ∧
    ∃ t, trace s' = (trace s5 ++ SendControl "z" :: t)%list.
Proof.
  intros m G E3 E4 Eg E5.
  assert (D : did s3 s5 [Getpass (auth_prompt url); Send (code ++ Str.LF)]).
  { pose proof (expect_quiet _ _ _ _ E4) as Q4.
    pose proof (progress_quiet _ _ _ _ _ _ (progress_start s3) Q4) as [_ _ _ D4].
    apply getpass_Ok in Eg as (rest & _ & ->). run.
    apply expect_quiet, did_quiet in E5.
    pose proof (did_log s3 s4 [] [Getpass (auth_prompt url)] (set_secrets rest)
                  (λ _, eq_refl) D4) as Dg.
    pose proof (did_log s3 _ _ [Send (code ++ Str.LF)] (λ z, z) (λ _, eq_refl) Dg) as Ds.
    pose proof (did_trans _ _ _ _ _ Ds E5) as D. exact D. }
  assert (M : mount h mountpoint force_remount s = handoff h m s5).
  { rewrite (mount_from_loop _ _ _ _ G). fold m.
    rewrite (bind_Ok _ _ _ _ _ E3). run. cbn [snd].
    pose proof (expect_quiet _ _ _ _ E4) as (_ & _ & S4 & _).
    pose proof Eg as Eg'. apply getpass_Ok in Eg' as (rest & S4' & _).
    rewrite <- S4, S4'. cbn [length await_outcome].
    rewrite bind_assoc, (bind_Ok _ _ _ _ _ E4). cbn [fst snd].
    rewrite !bind_assoc, (bind_Ok _ _ _ _ _ Eg).
    rewrite bind_assoc. run. run.
    rewrite bind_assoc, (bind_Ok _ _ _ _ _ E5). cbn [fst]. run. reflexivity. }
  split; [exact M|]. split; [apply startswith_app|]. split; [exact D|].
  intros r s' E. rewrite M in E.
  destruct (handoff_starts_with_suspend h m) as [Hn Hz]. split; [|eapply Hz, E].
  destruct (Hn _ _ _ E) as [(t & T & F) _].
  destruct (until_loop_no_getpass h m _ _ _ E3) as [(t3 & T3 & F3) _].
  destruct D as (t5 & T5 & C5).
  rewrite T, T5, T3, !getpass_prompts_app.
  rewrite (getpass_prompts_none _ F), (getpass_prompts_none _ F3).
  rewrite <- (getpass_prompts_commands t5), C5. cbn. now rewrite !app_nil_r.
Qed.

Lemma mount_authorizes_once_witness :
  mount Sim.colab Sim.drive false Sim.with_auth =
    handoff Sim.colab (expanduser Sim.colab Sim.drive) Sim.with_auth_mounted ∧
  Str.startswith Sim.auth_url (auth_prompt Sim.auth_url) = true ∧
  did Sim.with_auth_at_loop Sim.with_auth_mounted
    [Getpass (auth_prompt Sim.auth_url); Send (Sim.code ++ Str.LF)] ∧
  ∀ r s', mount Sim.colab Sim.drive false Sim.with_auth = (r, s') →
    getpass_prompts (trace s') =
      (getpass_prompts (trace Sim.with_auth) ++ [auth_prompt Sim.auth_url])%list ∧
    ∃ t, trace s' = (trace Sim.with_auth_mounted ++ SendControl "z" :: t)%list.
Proof.
  apply (mount_authorizes_once Sim.colab Sim.drive false
           Sim.with_auth Sim.with_auth_at_loop Sim.with_auth_asked
           Sim.with_auth_typed Sim.with_auth_mounted Sim.settings_v4 Sim.PS1
           Sim.auth_url Sim.code "");
    vm_compute; reflexivity.
Defined.

(** ** The final exit status *)

(** C7.  For every run of [mount] that leaves the loop with the success
    marker and goes through control-Z, the stopped job, [bg; disown; exit]
    and the end of the shell's output: if the exit status of the shell is
    not 0, [mount] raises [AssertionError] (lines 139-140); the state is the
    one at the end of output, so nothing is printed. *)
Theorem mount_surfaces_nonzero_exit_status
    (h : host) (mountpoint : string) (force_remount : bool)
    (s s3 s4 s5 s6 : state) (st : settings) (p : string) (x y : nat * string) :
  let m := expanduser h mountpoint in
  short_circuit h mountpoint force_remount s = false →
  until_loop h m s = (Ok (st, p), s3) →
  await_outcome (S (length (secrets s3))) h p s3 = (Ok tt, s4) →
  (sendcontrol "z" ;;; expect [Lit "Stopped"]) s4 = (Ok x, s5) →
  (sendline h "bg; disown; exit" ;;; expect [P_EOF]) s5 = (Ok y, s6) →
  final_status h ≠ Some 0%Z →
  mount h mountpoint force_remount s = (Raise AssertionError, s6).
Proof.
  intros m G E3 E4 E5 E6 Hs.
  rewrite (mount_from_loop _ _ _ _ G). fold m.
  rewrite (bind_Ok _ _ _ _ _ E3). run. cbn [snd].
  rewrite (bind_Ok _ _ _ _ _ E4).
  rewrite (handoff_run _ _ _ _ _ _ _ E5 E6).
  rewrite bool_decide_eq_false_2 by exact Hs.
  now destruct (match child s6 with Running => final_alive h | _ => false end).
Qed.

Lemma mount_surfaces_nonzero_exit_status_witness :
  mount Sim.failing Sim.drive false Sim.smooth =
    (Raise AssertionError, Sim.smooth_closed).
Proof.
  apply (mount_surfaces_nonzero_exit_status Sim.failing Sim.drive false
           Sim.smooth Sim.smooth_at_loop Sim.smooth_after_success
           Sim.smooth_stopped Sim.smooth_closed Sim.settings_v4 Sim.PS1
           (0%nat, "") (0%nat, ""));
    try (vm_compute; reflexivity).
  vm_compute. discriminate.
Defined.

(** ** The shell prompt in the loop *)

(** X8.  For every run of [mount] that reaches the loop: when the first
    [expect] of the loop finds the shell prompt (before any authorization
    round), the session is terminated with [force=True], nothing else is
    done, and [mount] raises [ValueError('mount failed')]. *)
Lemma mount_fails_on_early_prompt
    (h : host) (mountpoint : string) (force_remount : bool)
    (s s3 s4 : state) (st : settings) (p g : string) :
  let m := expanduser h mountpoint in
  short_circuit h mountpoint force_remount s = false →
  until_loop h m s = (Ok (st, p), s3) →
  expect [Lit success; Lit p; AuthUrlRe] s3 = (Ok (1%nat, g), s4) →
  mount h mountpoint force_remount s =
    (Raise (ValueError "mount failed"),
     log [Terminate true] (set_child Terminated s4)).
Proof.
  intros m G E3 E4.
  rewrite (mount_from_loop _ _ _ _ G). fold m.
  rewrite (bind_Ok _ _ _ _ _ E3). run. cbn [snd await_outcome].
  rewrite bind_assoc, (bind_Ok _ _ _ _ _ E4). cbn [fst]. run. reflexivity.
Qed.

(** C3, where the code departs from the claim.  The session asks for the
    authorization code, the user types it, and then the shell prompt comes
    back (the drive binary has exited).  Line 133 has by then assigned the
    text shown to the user to the variable [prompt], so the pattern list of
    the next [expect] no longer holds the shell prompt: the prompt stays in
    pexpect's buffer unrecognised, the run ends with [TIMEOUT] instead of
    [ValueError('mount failed')], [terminate] is never called and the child
    is left running. *)
Theorem prompt_after_authorization_is_missed :
  fst (mount Sim.colab Sim.drive false Sim.crash_after_auth) = Raise TIMEOUT ∧
  child (snd (mount Sim.colab Sim.drive false Sim.crash_after_auth)) = Running ∧
  Str.find Sim.PS1 (buffer (snd (mount Sim.colab Sim.drive false Sim.crash_after_auth)))
    = Some 2%nat ∧
  commands (trace (snd (mount Sim.colab Sim.drive false Sim.crash_after_auth))) =
    [ Makedirs "/root/.config/Google";
      Spawn "/bin/bash" ["--noediting"] (child_env Sim.settings_v4);
      SendLine (export_ps1 Sim.PS1);
      SendLine (cleanup_command Sim.drive);
      SendLine (success_watcher Sim.drive);
      SendLine (drive_command Sim.settings_v4 Sim.drive);
      Getpass (auth_prompt Sim.auth_url);
      Send (Sim.code ++ Str.LF) ].
Proof. repeat split; vm_compute; reflexivity. Qed.

(** ** The configuration directory *)




(** On a fresh machine the parent [/root/.config] is missing too:
    [os.makedirs] creates both directories and each is listed in its
    parent. *)
Example makedirs_creates_parents :
  let f := snd (makedirs_fs 20 "/root/.config/Google" Sim.fresh_fs) in
  fst (makedirs_fs 20 "/root/.config/Google" Sim.fresh_fs) = Made ∧
  fs_isdir f "/root/.config" = true ∧ fs_isdir f "/root/.config/Google" = true ∧
  fs_listdir f "/root" = [".config"] ∧ fs_listdir f "/root/.config" = ["Google"] ∧
  fs_listdir f "/root/.config/Google" = [].
Proof. repeat split; vm_compute; reflexivity. Qed.

(** ** The expanded mountpoint *)









(** The run for [~/drive] on the simulated machine: every line names
    [/root/drive]. *)
Example mount_tilde_drive :
  expanduser Sim.colab "~/drive" = "/root/drive" ∧
  fst (mount Sim.colab "~/drive" false Sim.at_home) = Ok tt ∧
  commands (trace (snd (mount Sim.colab "~/drive" false Sim.at_home))) =
    [ Makedirs "/root/.config/Google";
      Spawn "/bin/bash" ["--noediting"] (child_env Sim.settings_v4);
      SendLine (export_ps1 Sim.PS1);
      SendLine "umount -f /root/drive || umount /root/drive; pkill -9 -x drive";
      SendLine (success_watcher "/root/drive");
      SendLine (drive_command Sim.settings_v4 "/root/drive");
      SendControl "z";
      SendLine "bg; disown; exit";
      Print "Mounted at /root/drive" ].
Proof. repeat split; vm_compute; reflexivity. Qed.

(** ** The debug flag *)

Section Agree.

Lemma agree_ret {A} (a : A) : agree (ret a) (ret a).
Proof. intros s1 s2 R. split; [reflexivity|exact R]. Qed.

Lemma agree_raise {A} e : agree (@raise A e) (raise e).
Proof. intros s1 s2 R. split; [reflexivity|exact R]. Qed.

Lemma agree_bind {A B} (m1 m2 : M A) (k1 k2 : A → M B) :
  agree m1 m2 → (∀ a, agree (k1 a) (k2 a)) → agree (bind m1 k1) (bind m2 k2).
Proof.
  intros Hm Hk s1 s2 R. destruct (Hm _ _ R) as [F S]. unfold bind.
  destruct (m1 s1) as [[a1|e1] s1'], (m2 s2) as [[a2|e2] s2']; cbn in F, S;
    inversion F; subst; [apply Hk, S|split; [reflexivity|exact S]].
Qed.

Lemma agree_get_bind {B} (k1 k2 : state → M B) :
  (∀ s1 s2, same_run s1 s2 → agree (k1 s1) (k2 s2)) →
  agree (bind get k1) (bind get k2).
Proof. intros Hk s1 s2 R. exact (Hk _ _ R _ _ R). Qed.

Lemma agree_query {A} (f : state → A) :
  (∀ s1 s2, same_run s1 s2 → f s1 = f s2) →
  agree (s <- get ;; ret (f s)) (s <- get ;; ret (f s)).
Proof. intros Hf s1 s2 R. cbn. split; [f_equal; apply Hf, R|exact R]. Qed.

Lemma agree_modify (f1 f2 : state → state) :
  (∀ s1 s2, same_run s1 s2 → same_run (f1 s1) (f2 s2)) →
  agree (modify f1) (modify f2).
Proof. intros Hf s1 s2 R. split; [reflexivity|apply Hf, R]. Qed.

Lemma same_run_log a f s1 s2 :
  (∀ s, fs (f s) = fs s) → (∀ s, pending (f s) = pending s) →
  (∀ s, buffer (f s) = buffer s) → (∀ s, secrets (f s) = secrets s) →
  (∀ s, trace (f s) = trace s) →
  (child (f s1) = child (f s2)) →
  same_run s1 s2 → same_run (log a (f s1)) (log a (f s2)).
Proof.
  intros F P B S T C (R1 & R2 & R3 & R4 & R5 & R6). unfold same_run. simpl_state.
  rewrite !F, !P, !B, !S, !T, !commands_app, R6. auto 10.
Qed.

Lemma agree_isdir p : agree (isdir p) (isdir p).
Proof. apply (agree_query (λ s, fs_isdir (fs s) p)). now intros ?? (-> & _). Qed.
Lemma agree_islink p : agree (islink p) (islink p).
Proof. apply (agree_query (λ s, fs_islink (fs s) p)). now intros ?? (-> & _). Qed.
Lemma agree_exists p : agree (exists_ p) (exists_ p).
Proof. apply (agree_query (λ s, fs_exists (fs s) p)). now intros ?? (-> & _). Qed.
Lemma agree_listdir p : agree (listdir p) (listdir p).
Proof.
  intros s1 s2 R. pose proof R as (R1 & _). unfold listdir. run. rewrite R1.
  destruct (fs_unreadable (fs s2) p); cbn; auto.
Qed.
Lemma agree_realpath p : agree (realpath p) (realpath p).
Proof. apply (agree_query (λ s, fs_realpath (fs s) p)). now intros ?? (-> & _). Qed.

Lemma agree_isalive h b1 b2 :
  agree (isalive (with_debug b1 h)) (isalive (with_debug b2 h)).
Proof.
  apply (agree_query (λ s, match child s with Running => final_alive h | _ => false end)).
  now intros ?? (_ & _ & _ & -> & _).
Qed.

Lemma agree_sendline h b1 b2 line :
  agree (sendline (with_debug b1 h) line) (sendline (with_debug b2 h) line).
Proof.
  apply agree_modify. intros s1 s2 (R1 & R2 & R3 & R4 & R5 & R6).
  unfold same_run. simpl_state. cbn [shell with_debug].
  rewrite !commands_app, R1, R6. auto 10.
Qed.

Lemma agree_log a : agree (modify (log a)) (modify (log a)).
Proof.
  apply agree_modify. intros s1 s2 (R1 & R2 & R3 & R4 & R5 & R6).
  unfold same_run. simpl_state. rewrite !commands_app, R6. auto 10.
Qed.

Lemma agree_terminate force : agree (terminate force) (terminate force).
Proof.
  apply agree_modify. intros s1 s2 (R1 & R2 & R3 & R4 & R5 & R6).
  unfold same_run. simpl_state. rewrite !commands_app, R6. auto 10.
Qed.

Lemma agree_spawn h b1 b2 c args env :
  agree (spawn (with_debug b1 h) c args env) (spawn (with_debug b2 h) c args env).
Proof.
  unfold spawn. cbn [spawn_ok with_debug]. destruct (spawn_ok h); [|apply agree_raise].
  apply agree_modify. intros s1 s2 (R1 & R2 & R3 & R4 & R5 & R6).
  unfold same_run. simpl_state. rewrite !commands_app, R6. auto 10.
Qed.

Lemma agree_environ_get h b1 b2 key :
  agree (environ_get (with_debug b1 h) key) (environ_get (with_debug b2 h) key).
Proof.
  unfold environ_get. cbn [environ with_debug].
  destruct (environ h !! key); [apply agree_ret|apply agree_raise].
Qed.

Lemma agree_getpass prompt : agree (getpass prompt) (getpass prompt).
Proof.
  intros s1 s2 R. pose proof R as (R1 & R2 & R3 & R4 & R5 & R6).
  unfold getpass. run. rewrite R5.
  destruct (secrets s2) as [|c rest] eqn:E2; run; cbn.
  - split; [reflexivity|]. unfold same_run. simpl_state.
    rewrite !commands_app, R6. repeat split; congruence.
  - split; [reflexivity|]. unfold same_run. simpl_state.
    rewrite !commands_app, R6. repeat split; congruence.
Qed.

Lemma agree_makedirs p : agree (makedirs p) (makedirs p).
Proof.
  intros s1 s2 R. pose proof R as (R1 & R2 & R3 & R4 & R5 & R6).
  unfold makedirs. run. rewrite R1.
  destruct (makedirs_fs (String.length p) p (fs s2)) as [[| |] f']; run; cbn;
    (split; [reflexivity|]); unfold same_run; simpl_state;
    rewrite ?commands_app, R6; auto 10.
Qed.

Lemma agree_expect ps : agree (expect ps) (expect ps).
Proof.
  intros s1 s2 (R1 & R2 & R3 & R4 & R5 & R6). unfold expect. rewrite R2, R3.
  destruct (expect_loop ps (buffer s2) (pending s2)) as [[[o pend] buf] read].
  assert (S : same_run
            (log (if logfile_read s1 then Echo <$> read else []) (set_pty pend buf s1))
            (log (if logfile_read s2 then Echo <$> read else []) (set_pty pend buf s2))).
  { unfold same_run. simpl_state. rewrite !commands_app.
    replace (commands (if logfile_read s1 then Echo <$> read else [])) with (@nil action)
      by (destruct (logfile_read s1); [now rewrite commands_echo|reflexivity]).
    replace (commands (if logfile_read s2 then Echo <$> read else [])) with (@nil action)
      by (destruct (logfile_read s2); [now rewrite commands_echo|reflexivity]).
    rewrite R6. auto 10. }
  destruct o; [| |destruct (eof_index ps 0)]; cbn; auto.
Qed.

Lemma agree_try {A} (m1 m2 : M A) (h1 h2 : M unit) :
  agree m1 m2 → agree h1 h2 →
  agree (try_except_reraise m1 h1) (try_except_reraise m2 h2).
Proof.
  intros Hm Hh s1 s2 R. destruct (Hm _ _ R) as [F S]. unfold try_except_reraise.
  destruct (m1 s1) as [[a1|e1] s1'], (m2 s2) as [[a2|e2] s2']; cbn in F, S;
    inversion F; subst; [split; [reflexivity|exact S]|].
  destruct (Hh _ _ S) as [F' S'].
  destruct (h1 s1') as [[u1|e1] s1''], (h2 s2') as [[u2|e2'] s2'']; cbn in F', S';
    inversion F'; subst; split; auto.
Qed.

(** Setting [logfile_read] or not makes no difference. *)
Lemma agree_logfile (b1 b2 : bool) :
  agree (if b1 then modify (set_logfile_read true) else ret tt)
        (if b2 then modify (set_logfile_read true) else ret tt).
Proof.
  intros s1 s2 R. destruct b1, b2; cbn; (split; [reflexivity|]);
    unfold same_run in *; simpl_state; exact R.
Qed.

End Agree.

Ltac agree_step :=
  first
    [ apply agree_isdir | apply agree_islink | apply agree_exists
    | apply agree_listdir | apply agree_realpath | apply agree_isalive
    | apply agree_logfile | apply agree_expect | apply agree_sendline
    | apply agree_terminate | apply agree_spawn | apply agree_getpass
    | apply agree_environ_get | apply agree_makedirs | apply agree_try
    | apply agree_log | apply agree_ret | apply agree_raise
    | apply agree_bind; [|intros]
    | match goal with
      | |- agree (if ?b then _ else _) (if ?b then _ else _) => destruct b
      end ].

Lemma agree_await_outcome fuel h1 h2 prompt :
  agree (await_outcome fuel h1 prompt) (await_outcome fuel h2 prompt).
Proof.
  revert prompt. induction fuel as [|fuel IH]; intros prompt; cbn [await_outcome].
  - apply agree_raise.
  - apply agree_bind; [apply agree_expect|]. intros [i g]. cbn [fst snd].
    destruct i as [|[|[|i]]]; repeat agree_step; auto.
Qed.

Lemma agree_mount h b1 b2 mountpoint force_remount :
  agree (mount (with_debug b1 h) mountpoint force_remount)
        (mount (with_debug b2 h) mountpoint force_remount).
Proof.
  unfold mount.
  change (expanduser (with_debug b1 h) mountpoint) with (expanduser h mountpoint).
  change (expanduser (with_debug b2 h) mountpoint) with (expanduser h mountpoint).
  apply agree_bind; [apply agree_isdir|]. intros already.
  destruct (negb force_remount && already); [apply agree_log|].
  apply agree_bind; [unfold configure; repeat agree_step|]. intros st.
  apply agree_bind.
  { unfold open_session.
    change (prompt_of (with_debug b1 h)) with (prompt_of h).
    change (prompt_of (with_debug b2 h)) with (prompt_of h).
    cbn [DEBUG with_debug]. repeat agree_step. }
  intros p.
  apply agree_bind; [unfold validate, check_mountpoint; repeat agree_step|]. intros _.
  apply agree_bind; [unfold launch; repeat agree_step|]. intros _.
  apply agree_get_bind. intros s1 s2 (_ & _ & _ & _ & -> & _).
  apply agree_bind; [apply agree_await_outcome|]. intros _.
  unfold handoff, sendcontrol, print, exitstatus. cbn [final_status with_debug].
  repeat agree_step.
Qed.

(** C8.  Two runs of [mount] from the same state that differ only in the
    value of [mount._DEBUG] end with the same result (returned value or
    exception), and in states that are the same but for [logfile_read] and
    for the echoes of child output in the trace: the same file system, pty,
    child, remaining secrets, and the same actions (commands sent, prompts,
    prints, terminations) in the same order. *)
Theorem debug_flag_changes_only_echo
    (h : host) (mountpoint : string) (force_remount : bool) (s : state) :
  fst (mount (with_debug true h) mountpoint force_remount s) =
  fst (mount (with_debug false h) mountpoint force_remount s) ∧
  same_run (snd (mount (with_debug true h) mountpoint force_remount s))
           (snd (mount (with_debug false h) mountpoint force_remount s)).
Proof.
  apply agree_mount. unfold same_run. auto 10.
Qed.

(** ** The loop always ends *)

(** With more fuel than the user has secrets, the loop ends by itself: every
    pass that goes round takes a secret. *)
Lemma await_outcome_ends fuel h prompt s r s' :
  (length (secrets s) < fuel)%nat →
  await_outcome fuel h prompt s = (r, s') →
  r ≠ Raise OutOfFuel.
Proof.
  revert prompt s. induction fuel as [|fuel IH]; intros prompt s L E; [lia|].
  cbn [await_outcome] in E.
  apply bind_inv in E as [([i g] & s1 & E1 & E)|(e & E1 & ->)].
  - pose proof (expect_index _ _ _ _ _ E1) as Hi. cbn [length] in Hi.
    pose proof (expect_quiet _ _ _ _ E1) as (_ & _ & S1 & _).
    cbn [fst snd] in E. destruct i as [|[|[|i]]]; [| | |lia].
    + inversion E. discriminate.
    + run. inversion E. discriminate.
    + apply bind_inv in E as [(code & s2 & E2 & E)|(e & E2 & ->)].
      * apply getpass_Ok in E2 as (rest & S2 & ->). run.
        eapply IH; [|exact E]. simpl_state. rewrite <- S1, S2 in L. cbn in L. lia.
      * unfold getpass in E2. run. destruct (secrets s1); run; [|discriminate].
        inversion E2. discriminate.
  - unfold expect in E1.
    destruct (expect_loop _ _ _) as [[[o pend] buf] read].
    destruct o; [discriminate| |destruct (eof_index _ 0); [discriminate|]];
      inversion E1; discriminate.
Qed.

Lemma until_loop_fuel h m : emits (λ _, True) not_out_of_fuel (until_loop h m).
Proof.
  unfold until_loop, until_validation, configure, open_session, validate,
    check_mountpoint, launch.
  emits_walk; try (intros; exact I); discriminate.
Qed.

Lemma handoff_fuel h m : emits (λ _, True) not_out_of_fuel (handoff h m).
Proof. unfold handoff. emits_walk; try (intros; exact I); discriminate. Qed.

(** No run of [mount] ends with the exception of the embedding: the bound
    put on the [while True] loop is never reached. *)
Lemma mount_never_out_of_fuel h mountpoint force_remount s :
  fst (mount h mountpoint force_remount s) ≠ Raise OutOfFuel.
Proof.
  destruct (short_circuit h mountpoint force_remount s) eqn:G.
  { now rewrite (mount_short_circuit _ _ _ _ G). }
  rewrite (mount_from_loop _ _ _ _ G).
  destruct ((_ : M unit) s) as [r s'] eqn:E. cbn [fst].
  apply bind_inv in E as [(sp & s3 & E3 & E)|(e & E3 & ->)].
  - run. apply bind_inv in E as [(u & s4 & E4 & E)|(e & E4 & ->)].
    + destruct (handoff_fuel h _ _ _ _ E) as [_ R]. intros ->. now apply (R _ eq_refl).
    + eapply await_outcome_ends; [|exact E4]. lia.
  - destruct (until_loop_fuel h _ _ _ _ E3) as [_ R]. intros [= ->].
    now apply (R _ eq_refl).
Qed.

(** * Further properties of the script *)

(** ** The environment variables of lines 43-45 *)

(** X1.  A run that is not short-circuited needs [HOME] and
    [CLOUDSDK_CONFIG]: without [HOME] it ends with [KeyError('HOME')],
    with [HOME] but without [CLOUDSDK_CONFIG] with
    [KeyError('CLOUDSDK_CONFIG')]; in both cases nothing has been done:
    the state is the initial one. *)
Theorem mount_requires_environment
    (h : host) (mountpoint : string) (force_remount : bool) (s : state) :
  short_circuit h mountpoint force_remount s = false →
  (environ h !! "HOME" = None →
   mount h mountpoint force_remount s = (Raise (KeyError "HOME"), s)) ∧
  (is_Some (environ h !! "HOME") → environ h !! "CLOUDSDK_CONFIG" = None →
   mount h mountpoint force_remount s = (Raise (KeyError "CLOUDSDK_CONFIG"), s)).
Proof.
  intros G. split.
  - intros Hh. rewrite (mount_from_validation _ _ _ _ G).
    apply bind_Raise. unfold until_validation. apply bind_Raise.
    unfold configure. apply bind_Raise. unfold environ_get. now rewrite Hh.
  - intros [home0 Hh] Hc. rewrite (mount_from_validation _ _ _ _ G).
    apply bind_Raise. unfold until_validation. apply bind_Raise.
    unfold configure.
    rewrite (bind_Ok _ _ s home0 s) by (unfold environ_get; now rewrite Hh).
    apply bind_Raise. unfold environ_get. now rewrite Hc.
Qed.

Lemma mount_requires_environment_witness :
  (environ Sim.elsewhere !! "HOME" = None →
   mount Sim.elsewhere Sim.drive false Sim.smooth = (Raise (KeyError "HOME"), Sim.smooth)) ∧
  (is_Some (environ Sim.elsewhere !! "HOME") →
   environ Sim.elsewhere !! "CLOUDSDK_CONFIG" = None →
   mount Sim.elsewhere Sim.drive false Sim.smooth =
     (Raise (KeyError "CLOUDSDK_CONFIG"), Sim.smooth)).
Proof.
  apply (mount_requires_environment Sim.elsewhere Sim.drive false Sim.smooth).
  vm_compute. reflexivity.
Defined.

(** ** When the session is terminated *)

Section Kills.

Lemma kills_ret {A} (a : A) : kills_with_error (ret a).
Proof.
  intros s r s' N E. inversion E; subst. split; [|intros C; contradiction].
  split; [contradiction|]. intros (e & [=] & _).
Qed.

Lemma kills_raise {A} e : harmless e → kills_with_error (@raise A e).
Proof.
  intros He s r s' N E. inversion E; subst. split; [|intros C; contradiction].
  split; [contradiction|]. intros (e' & [= <-] & Hf). now destruct (He Hf).
Qed.

Lemma kills_bind {A B} (m : M A) (k : A → M B) :
  kills_with_error m → (∀ a, kills_with_error (k a)) → kills_with_error (bind m k).
Proof.
  intros Hm Hk s r s' N E.
  apply bind_inv in E as [(a & s1 & E1 & E)|(e & E1 & ->)].
  - destruct (Hm _ _ _ N E1) as [[H1 _] _].
    apply (Hk a s1 r s'); [|exact E].
    intros C. destruct (H1 C) as (e & [=] & _).
  - destruct (Hm _ _ _ N E1) as [[H1 H2] H3]. split; [|exact H3]. split.
    + intros C. destruct (H1 C) as (e' & [= <-] & Hf). eauto.
    + intros (e' & [= <-] & Hf). apply H2. eauto.
Qed.

(** A step that returns, or raises a harmless exception, and leaves the
    child as it is or running. *)
Lemma kills_step {A} (m : M A) :
  (∀ s r s', m s = (r, s') →
     (child s' = child s ∨ child s' = Running) ∧ (∀ e, r = Raise e → harmless e)) →
  kills_with_error m.
Proof.
  intros Hm s r s' N E. destruct (Hm _ _ _ E) as [C R].
  assert (N' : child s' ≠ Terminated) by (destruct C as [-> | ->]; [exact N|discriminate]).
  split; [|intros; contradiction]. split; [contradiction|].
  intros (e & -> & Hf). now destruct (R _ eq_refl Hf).
Qed.

Lemma harmless_other e : (∀ msg, e ≠ ValueError msg) → e ≠ OSError → harmless e.
Proof. intros H1 H2 [->|(msg & -> & _)]; [now destruct H2|now destruct (H1 msg)]. Qed.

Lemma kills_query {A} (f : state → A) : kills_with_error (s <- get ;; ret (f s)).
Proof.
  apply kills_step. intros s r s' E. inversion E; subst. split; [now left|discriminate].
Qed.

Lemma kills_get : kills_with_error get.
Proof.
  apply kills_step. intros s r s' E. inversion E; subst. split; [now left|discriminate].
Qed.

Lemma kills_modify (f : state → state) :
  (∀ s, child (f s) = child s ∨ child (f s) = Running) → kills_with_error (modify f).
Proof.
  intros Hf. apply kills_step. intros s r s' E. inversion E; subst.
  split; [apply Hf|discriminate].
Qed.

Lemma kills_expect ps : kills_with_error (expect ps).
Proof.
  apply kills_step. intros s r s' E. split.
  - left. now destruct (expect_quiet _ _ _ _ E) as (_ & C & _).
  - intros e ->. unfold expect in E.
    destruct (expect_loop _ _ _) as [[[o pend] buf] read].
    destruct o; [| |destruct (eof_index ps 0)]; inversion E; subst;
      apply harmless_other; discriminate.
Qed.

Lemma kills_spawn h c args env : kills_with_error (spawn h c args env).
Proof.
  unfold spawn. destruct (spawn_ok h).
  - apply kills_modify. intros s. right. reflexivity.
  - apply kills_raise, harmless_other; discriminate.
Qed.

Lemma kills_getpass prompt : kills_with_error (getpass prompt).
Proof.
  apply kills_step. intros s r s' E. unfold getpass in E. run.
  destruct (secrets s); run; inversion E; subst; simpl_state;
    (split; [now left|]); intros e [= <-]; apply harmless_other; discriminate.
Qed.

Lemma kills_environ_get h key : kills_with_error (environ_get h key).
Proof.
  unfold environ_get. destruct (environ h !! key);
    [apply kills_ret|apply kills_raise, harmless_other; discriminate].
Qed.

Lemma kills_makedirs p : kills_with_error (makedirs p).
Proof.
  apply kills_step. intros s r s' E. unfold makedirs in E. run.
  destruct (makedirs_fs _ _ _) as [[| |] f']; run;
    inversion E; subst; simpl_state; (split; [now left|discriminate]).
Qed.

(** Lines 129-130. *)
Lemma kills_mount_failed {A} :
  kills_with_error (terminate true ;;; @raise A (ValueError "mount failed")).
Proof.
  intros s r s' N E. run. inversion E; subst. simpl_state. split.
  - split; [|reflexivity]. intros _. exists (ValueError "mount failed").
    split; [reflexivity|]. right. exists "mount failed".
    split; [reflexivity|]. apply elem_of_cons. now left.
  - intros _. exists (trace s). reflexivity.
Qed.

(** Lines 93-102. *)
Lemma kills_validate m : kills_with_error (validate m).
Proof.
  intros s r s' N E. rewrite validate_run in E.
  destruct (verdict (fs s) m) as [e|] eqn:V; inversion E; subst; simpl_state.
  - split.
    + split; [|reflexivity]. intros _. exists e. split; [reflexivity|].
      destruct (verdict_kind _ _ _ V) as [->|[msg ->]]; [now left|].
      right. exists msg. split; [reflexivity|].
      apply elem_of_cons. right. eapply verdict_messages, V.
    + intros _. exists (trace s). reflexivity.
  - split; [|intros; contradiction]. split; [contradiction|]. intros (? & [=] & _).
Qed.

End Kills.

Lemma config_dir_message_harmless d : harmless (ValueError (config_dir_message d)).
Proof.
  intros [[=]|(msg & [= <-] & H)]. apply elem_of_cons in H as [H|H].
  - pose proof (length_app_string d " must be a directory if present") as L.
    unfold config_dir_message in H. rewrite H in L. cbn in L. lia.
  - now apply config_dir_message_not_validation in H.
Qed.

Ltac kills_step_tac :=
  first
    [ apply kills_mount_failed | apply kills_validate | apply kills_expect
    | apply kills_spawn | apply kills_getpass | apply kills_environ_get
    | apply kills_makedirs
    | apply (kills_query (λ s, fs_isdir (fs s) _))
    | apply (kills_query (λ s, fs_realpath (fs s) _))
    | apply (kills_query (λ s, match child s with Running => _ | _ => false end))
    | apply kills_ret | apply kills_get
    | apply kills_modify; intros; simpl_state; now left
    | apply kills_raise;
        first [apply config_dir_message_harmless | apply harmless_other; discriminate]
    | apply kills_bind; [|intros]
    | match goal with
      | |- kills_with_error (if ?b then _ else _) => destruct b
      end ].

Lemma kills_await_outcome fuel h prompt :
  kills_with_error (await_outcome fuel h prompt).
Proof.
  revert prompt. induction fuel as [|fuel IH]; intros prompt; cbn [await_outcome].
  - apply kills_raise, harmless_other; discriminate.
  - apply kills_bind; [apply kills_expect|]. intros [i g]. cbn [fst snd].
    destruct i as [|[|[|i]]]; [apply kills_ret|apply kills_mount_failed| |apply IH].
    apply kills_bind; [apply kills_getpass|]. intros code.
    apply kills_bind; [|intros; apply IH].
    apply kills_modify. intros; simpl_state; now left.
Qed.

Lemma kills_mount h mountpoint force_remount :
  kills_with_error (mount h mountpoint force_remount).
Proof.
  unfold mount.
  apply kills_bind; [apply (kills_query (λ s, fs_isdir (fs s) _))|]. intros already.
  destruct (negb force_remount && already).
  { apply kills_modify. intros; simpl_state; now left. }
  apply kills_bind; [unfold configure; repeat kills_step_tac|]. intros st.
  apply kills_bind.
  { unfold open_session, sendline. repeat kills_step_tac. }
  intros p.
  apply kills_bind; [apply kills_validate|]. intros _.
  apply kills_bind; [unfold launch, sendline; repeat kills_step_tac|]. intros _.
  apply kills_bind; [apply kills_get|]. intros s0.
  apply kills_bind; [apply kills_await_outcome|]. intros _.
  unfold handoff, sendline, sendcontrol, print, exitstatus. repeat kills_step_tac.
Qed.

(** X2.  In every run of [mount] that starts with a child that is not
    terminated, the session ends force-terminated exactly when the run ends
    with one of these exceptions: [ValueError] with 'mount failed' (line
    130), [ValueError] with one of the three validation messages (lines
    95-99), or the [OSError] that [os.listdir] raised at line 96 and the
    bare [except] of line 100 raised again.  [d.terminate(force=True)] is
    then the last thing the run did.  In every other outcome [terminate]
    has not been called. *)
Theorem mount_terminates_exactly_on_fatal_errors
    (h : host) (mountpoint : string) (force_remount : bool)
    (s s' : state) (r : result unit) :
  child s ≠ Terminated →
  mount h mountpoint force_remount s = (r, s') →
  (child s' = Terminated ↔ ∃ e, r = Raise e ∧ fatal e) ∧
  (child s' = Terminated → ∃ t, trace s' = (t ++ [Terminate true])%list).
Proof. exact (kills_mount h mountpoint force_remount s r s'). Qed.

(** The theorem on two runs: the drive binary that dies at once (the error
    of line 130), and a mountpoint that [os.listdir] cannot read (the
    [OSError] raised again by line 102). *)
Lemma mount_terminates_exactly_on_fatal_errors_witness :
  (fst (mount Sim.colab Sim.drive false Sim.crash_at_once) =
     Raise (ValueError "mount failed") ∧
   child (snd (mount Sim.colab Sim.drive false Sim.crash_at_once)) = Terminated) ∧
  (fst (mount Sim.colab Sim.drive false Sim.unreadable) = Raise OSError ∧
   child (snd (mount Sim.colab Sim.drive false Sim.unreadable)) = Terminated ∧
   ∃ t, trace (snd (mount Sim.colab Sim.drive false Sim.unreadable)) =
          (t ++ [Terminate true])%list).
Proof.
  split.
  - destruct (mount_terminates_exactly_on_fatal_errors Sim.colab Sim.drive false
                Sim.crash_at_once
                (snd (mount Sim.colab Sim.drive false Sim.crash_at_once))
                (fst (mount Sim.colab Sim.drive false Sim.crash_at_once)))
      as [[_ H] _]; [vm_compute; discriminate|vm_compute; reflexivity|].
    split; [vm_compute; reflexivity|]. apply H.
    exists (ValueError "mount failed"). split; [vm_compute; reflexivity|].
    right. exists "mount failed". split; [reflexivity|]. apply elem_of_cons. now left.
  - destruct (mount_terminates_exactly_on_fatal_errors Sim.colab Sim.drive false
                Sim.unreadable
                (snd (mount Sim.colab Sim.drive false Sim.unreadable))
                (fst (mount Sim.colab Sim.drive false Sim.unreadable)))
      as [[_ H] T]; [vm_compute; discriminate|vm_compute; reflexivity|].
    assert (C : child (snd (mount Sim.colab Sim.drive false Sim.unreadable)) = Terminated).
    { apply H. exists OSError. split; [vm_compute; reflexivity|]. now left. }
    split; [vm_compute; reflexivity|]. split; [exact C|]. exact (T C).
Defined.

(** ** The shape of a run that mounts *)

Lemma until_loop_Ok h m s st p s3 :
  until_loop h m s = (Ok (st, p), s3) →
  p = prompt_of h ∧
  ∃ pre, Forall is_makedirs pre ∧
    progress s s3 Running (DEBUG h || logfile_read s)
      (pre ++ session_opened h st m ++
       [SendLine (success_watcher m); SendLine (drive_command st m)]).
Proof.
  unfold until_loop. intros E.
  apply bind_inv in E as [([st' p'] & s2 & E2 & E)|(? & ? & ?)]; [|discriminate].
  apply bind_inv in E as [(u & s2' & Ev & E)|(? & ? & ?)]; [|discriminate].
  apply bind_inv in E as [(u' & s3' & El & E)|(? & ? & ?)]; [|discriminate].
  inversion E; subst. cbn [fst snd] in *.
  apply until_validation_Ok in E2 as (-> & pre & F & [C S L D]).
  rewrite validate_run in Ev. destruct (verdict (fs s2) m); [discriminate|].
  inversion Ev; subst. destruct u'.
  apply launch_Ok in El as [C' S' L' D'].
  split; [reflexivity|]. exists pre. split; [exact F|].
  split; try congruence. rewrite app_assoc. eapply did_trans; eauto.
Qed.

(** The loop, when it leaves by the success marker, has made a number of
    authorization rounds and nothing else; the codes it sent are the ones
    the user typed, in order. *)
Lemma await_outcome_Ok fuel h prompt s3 s4 :
  await_outcome fuel h prompt s3 = (Ok tt, s4) →
  ∃ rs, did s3 s4 (rounds rs) ∧ secrets s3 = (map snd rs ++ secrets s4)%list ∧
        child s4 = child s3.
Proof.
  revert prompt s3. induction fuel as [|fuel IH]; intros prompt s3 E; [discriminate|].
  cbn [await_outcome] in E.
  apply bind_inv in E as [([i g] & s1 & E1 & E)|(? & ? & ?)]; [|discriminate].
  pose proof (expect_index _ _ _ _ _ E1) as Hi. cbn [length] in Hi.
  pose proof (expect_quiet _ _ _ _ E1) as Q.
  pose proof Q as (_ & C1 & S1 & _ & D1).
  cbn [fst snd] in E. destruct i as [|[|[|i]]]; [| | |lia].
  - inversion E; subst. exists []. cbn. auto.
  - run. discriminate.
  - apply bind_inv in E as [(code & s2 & E2 & E)|(? & ? & ?)]; [|discriminate].
    apply getpass_Ok in E2 as (rest & S2 & ->). run.
    apply IH in E as (rs & D & S & C). simpl_state.
    exists ((g, code) :: rs). split; [|split].
    + pose proof (did_log s3 s1 [] [Getpass (auth_prompt g)] (set_secrets rest)
                    (λ _, eq_refl) D1) as Dg.
      pose proof (did_log s3 _ _ [Send (code ++ Str.LF)] (λ z, z) (λ _, eq_refl) Dg) as Ds.
      exact (did_trans _ _ _ _ _ Ds D).
    + cbn. rewrite <- S1, S2, S. reflexivity.
    + congruence.
Qed.




(** ** A normal return *)

Lemma handoff_Ok_status h m s4 s' :
  handoff h m s4 = (Ok tt, s') →
  final_status h = Some 0%Z ∧ (child s4 = Running → final_alive h = false).
Proof.
  intros E.
  destruct ((sendcontrol "z" ;;; expect [Lit "Stopped"]) s4) as [[x|e] s5] eqn:E5.
  2:{ unfold handoff in E. rewrite <- bind_assoc, (bind_Raise _ _ _ _ _ E5) in E.
      discriminate. }
  destruct ((sendline h "bg; disown; exit" ;;; expect [P_EOF]) s5) as [[y|e] s6] eqn:E6.
  2:{ unfold handoff in E. rewrite <- bind_assoc, (bind_Ok _ _ _ _ _ E5) in E.
      rewrite <- bind_assoc, (bind_Raise _ _ _ _ _ E6) in E. discriminate. }
  pose proof (handoff_did _ _ _ _ _ _ E5 E6) as [C _ _ _].
  rewrite (handoff_run _ _ _ _ _ _ _ E5 E6) in E.
  destruct (match child s6 with Running => final_alive h | _ => false end) eqn:A;
    [discriminate|].
  destruct (bool_decide _) eqn:B; [|discriminate].
  apply bool_decide_eq_true_1 in B. split; [exact B|].
  intros R. rewrite C, R in A. exact A.
Qed.

(** X4.  [mount] returns normally, without the short circuit, only after a
    clean exit of the shell: the process is no longer alive and its exit
    status is 0.  (With any other exit status, no run of [mount] that gets
    past line 38 returns normally.) *)
Theorem mount_returns_only_after_clean_exit
    (h : host) (mountpoint : string) (force_remount : bool) (s s' : state) :
  short_circuit h mountpoint force_remount s = false →
  mount h mountpoint force_remount s = (Ok tt, s') →
  final_status h = Some 0%Z ∧ final_alive h = false.
Proof.
  intros G E. rewrite (mount_from_loop _ _ _ _ G) in E.
  apply bind_inv in E as [([st p] & s3 & E3 & E)|(? & ? & ?)]; [|discriminate]. run.
  apply bind_inv in E as [([] & s4 & E4 & E)|(? & ? & ?)]; [|discriminate].
  apply until_loop_Ok in E3 as (_ & pre & F & [C3 _ _ _]).
  apply await_outcome_Ok in E4 as (rs & _ & _ & C4).
  apply handoff_Ok_status in E as [Hs Ha]. split; [exact Hs|].
  apply Ha. congruence.
Qed.

Lemma mount_returns_only_after_clean_exit_witness :
  final_status Sim.colab = Some 0%Z ∧ final_alive Sim.colab = false.
Proof.
  apply (mount_returns_only_after_clean_exit Sim.colab Sim.drive false Sim.smooth
           (snd (mount Sim.colab Sim.drive false Sim.smooth))).
  - vm_compute. reflexivity.
  - vm_compute. reflexivity.
Defined.

(** ** What the debug flag shows *)

Section Echo.

Lemma no_echo_ret {A} (a : A) : no_echo (ret a).
Proof.
  intros s r s' L E. inversion E; subst. split; [exact L|].
  exists []. now rewrite app_nil_r.
Qed.

Lemma no_echo_raise {A} e : no_echo (@raise A e).
Proof.
  intros s r s' L E. inversion E; subst. split; [exact L|].
  exists []. now rewrite app_nil_r.
Qed.

Lemma no_echo_get : no_echo get.
Proof.
  intros s r s' L E. inversion E; subst. split; [exact L|].
  exists []. now rewrite app_nil_r.
Qed.

Lemma no_echo_bind {A B} (m : M A) (k : A → M B) :
  no_echo m → (∀ a, no_echo (k a)) → no_echo (bind m k).
Proof.
  intros Hm Hk s r s' L E.
  apply bind_inv in E as [(a & s1 & E1 & E)|(e & E1 & ->)].
  - destruct (Hm _ _ _ L E1) as (L1 & t1 & T1 & C1).
    destruct (Hk a _ _ _ L1 E) as (L2 & t2 & T2 & C2).
    split; [exact L2|]. exists (t1 ++ t2)%list.
    rewrite T2, T1, app_assoc, commands_app, C1, C2. auto.
  - exact (Hm _ _ _ L E1).
Qed.

Lemma no_echo_try {A} (m : M A) (hd : M unit) :
  no_echo m → no_echo hd → no_echo (try_except_reraise m hd).
Proof.
  intros Hm Hh s r s' L E. unfold try_except_reraise in E.
  destruct (m s) as [[a|e] s1] eqn:E1.
  - inversion E; subst. exact (Hm _ _ _ L E1).
  - destruct (Hm _ _ _ L E1) as (L1 & t1 & T1 & C1).
    destruct (hd s1) as [[u|e'] s2] eqn:E2;
      destruct (Hh _ _ _ L1 E2) as (L2 & t2 & T2 & C2); inversion E; subst;
      (split; [exact L2|]); exists (t1 ++ t2)%list;
      rewrite T2, T1, app_assoc, commands_app, C1, C2; auto.
Qed.

Lemma no_echo_log {A} (a : A) (t : list action) (f : state → state) :
  (∀ s, trace (f s) = trace s) → (∀ s, logfile_read (f s) = logfile_read s) →
  commands t = t →
  no_echo (λ s, (Ok a, log t (f s))).
Proof.
  intros Hf Hl Ht s r s' L E. inversion E; subst. simpl_state. rewrite Hl, Hf.
  split; [exact L|]. exists t. auto.
Qed.

Lemma no_echo_sendline h line : no_echo (sendline h line).
Proof.
  now apply (no_echo_log tt [SendLine line] (λ s, set_fs (shell h line (fs s)) s)).
Qed.

Lemma no_echo_expect ps : no_echo (expect ps).
Proof.
  intros s r s' L E. unfold expect in E. rewrite L in E.
  destruct (expect_loop ps (buffer s) (pending s)) as [[[o pend] buf] read].
  assert (s' = log [] (set_pty pend buf s)) as ->
    by (destruct o; [| |destruct (eof_index ps 0)]; now inversion E).
  simpl_state. split; [exact L|]. exists []. auto.
Qed.

Lemma no_echo_getpass prompt : no_echo (getpass prompt).
Proof.
  unfold getpass. apply no_echo_bind; [apply no_echo_get|]. intros s0.
  destruct (secrets s0).
  - apply no_echo_bind; [|intros; apply no_echo_raise].
    now apply (no_echo_log tt [Getpass prompt] (λ s, s)).
  - apply no_echo_bind; [|intros; apply no_echo_ret].
    now apply (no_echo_log tt [Getpass prompt]).
Qed.

Lemma no_echo_makedirs p : no_echo (makedirs p).
Proof.
  intros s r s' L E. unfold makedirs in E. run.
  destruct (makedirs_fs _ _ _) as [[| |] f']; run; inversion E; subst; simpl_state;
    (split; [exact L|]);
    [exists [Makedirs p]; auto|exists []; now rewrite app_nil_r..].
Qed.

End Echo.

Ltac no_echo_step :=
  first
    [ apply no_echo_expect | apply no_echo_getpass | apply no_echo_makedirs
    | apply no_echo_sendline | apply no_echo_try
    | apply (no_echo_log tt [_] (λ s, s)); [reflexivity|reflexivity|reflexivity]
    | apply (no_echo_log tt [_] (set_fs _)); [reflexivity|reflexivity|reflexivity]
    | apply (no_echo_log tt [_] (set_child _)); [reflexivity|reflexivity|reflexivity]
    | apply no_echo_ret | apply no_echo_get | apply no_echo_raise
    | apply no_echo_bind; [|intros]
    | match goal with
      | |- no_echo (if ?b then _ else _) => destruct b
      | |- no_echo (match ?x with Some _ => _ | None => _ end) => destruct x
      end ].

Lemma no_echo_await_outcome fuel h prompt : no_echo (await_outcome fuel h prompt).
Proof.
  revert prompt. induction fuel as [|fuel IH]; intros prompt; cbn [await_outcome].
  - apply no_echo_raise.
  - apply no_echo_bind; [apply no_echo_expect|]. intros [i g]. cbn [fst snd].
    destruct i as [|[|[|i]]]; unfold terminate, send, modify; repeat no_echo_step; auto.
Qed.

(** X6.  Without the debug flag, and with no log file set before, a run of
    [mount] writes no child output to [sys.stdout]: what it adds to the
    trace holds no echo, and [logfile_read] stays unset. *)
Theorem mount_without_debug_echoes_nothing
    (h : host) (mountpoint : string) (force_remount : bool)
    (s s' : state) (r : result unit) :
  DEBUG h = false →
  logfile_read s = false →
  mount h mountpoint force_remount s = (r, s') →
  logfile_read s' = false ∧
  ∃ t, trace s' = (trace s ++ t)%list ∧ commands t = t.
Proof.
  intros Hd L E. revert s r s' L E. change (no_echo (mount h mountpoint force_remount)).
  unfold mount, configure, open_session, validate, check_mountpoint, launch, handoff.
  rewrite Hd.
  unfold isdir, islink, exists_, listdir, realpath, isalive, exitstatus, environ_get,
    spawn, send, sendcontrol, terminate, print, modify.
  repeat first [apply no_echo_await_outcome | no_echo_step].
Qed.

Lemma mount_without_debug_echoes_nothing_witness :
  logfile_read (snd (mount Sim.colab Sim.drive false Sim.with_auth)) = false ∧
  ∃ t, trace (snd (mount Sim.colab Sim.drive false Sim.with_auth)) =
         (trace Sim.with_auth ++ t)%list ∧ commands t = t.
Proof.
  apply (mount_without_debug_echoes_nothing Sim.colab Sim.drive false Sim.with_auth _
           (fst (mount Sim.colab Sim.drive false Sim.with_auth))).
  - reflexivity.
  - reflexivity.
  - vm_compute. reflexivity.
Defined.

Lemma expect_loop_reads ps buf pend o pend' buf' read :
  expect_loop ps buf pend = (o, pend', buf', read) →
  pend = ((Data <$> read) ++ pend')%list.
Proof.
  revert buf read. induction pend as [|c pend IH]; intros buf read; cbn [expect_loop].
  - destruct (search ps 0 buf); intros E; inversion E; reflexivity.
  - destruct (search ps 0 buf); [intros E; inversion E; reflexivity|].
    destruct c as [c|]; [|intros E; inversion E; reflexivity].
    destruct (expect_loop ps (buf ++ c) pend) as [[[o1 p1] b1] r1] eqn:El.
    intros E; inversion E; subst. cbn. f_equal. eapply IH, El.
Qed.

Lemma echoes_app t u : echoes (t ++ u) = (echoes t ++ echoes u)%list.
Proof.
  induction t as [|a t IH]; [reflexivity|]. destruct a; cbn; rewrite ?IH; reflexivity.
Qed.

Lemma echoes_echo l : echoes (Echo <$> l) = l.
Proof. induction l as [|x l IH]; [reflexivity|]. cbn. now rewrite IH. Qed.

Section EchoAll.

Lemma echo_all_ret {A} (a : A) : echo_all (ret a).
Proof.
  intros s r s' L E. inversion E; subst. split; [exact L|].
  exists []. now rewrite app_nil_r.
Qed.

Lemma echo_all_raise {A} e : echo_all (@raise A e).
Proof.
  intros s r s' L E. inversion E; subst. split; [exact L|].
  exists []. now rewrite app_nil_r.
Qed.

Lemma echo_all_get : echo_all get.
Proof.
  intros s r s' L E. inversion E; subst. split; [exact L|].
  exists []. now rewrite app_nil_r.
Qed.

Lemma echo_all_bind {A B} (m : M A) (k : A → M B) :
  echo_all m → (∀ a, echo_all (k a)) → echo_all (bind m k).
Proof.
  intros Hm Hk s r s' L E.
  apply bind_inv in E as [(a & s1 & E1 & E)|(e & E1 & ->)].
  - destruct (Hm _ _ _ L E1) as (L1 & t1 & T1 & P1).
    destruct (Hk a _ _ _ L1 E) as (L2 & t2 & T2 & P2).
    split; [exact L2|]. exists (t1 ++ t2)%list.
    rewrite T2, T1, app_assoc, echoes_app, fmap_app, P1, P2, app_assoc. auto.
  - exact (Hm _ _ _ L E1).
Qed.

Lemma echo_all_try {A} (m : M A) (hd : M unit) :
  echo_all m → echo_all hd → echo_all (try_except_reraise m hd).
Proof.
  intros Hm Hh s r s' L E. unfold try_except_reraise in E.
  destruct (m s) as [[a|e] s1] eqn:E1.
  - inversion E; subst. exact (Hm _ _ _ L E1).
  - destruct (Hm _ _ _ L E1) as (L1 & t1 & T1 & P1).
    destruct (hd s1) as [[u|e'] s2] eqn:E2;
      destruct (Hh _ _ _ L1 E2) as (L2 & t2 & T2 & P2); inversion E; subst;
      (split; [exact L2|]); exists (t1 ++ t2)%list;
      rewrite T2, T1, app_assoc, echoes_app, fmap_app, P1, P2, app_assoc; auto.
Qed.

Lemma echo_all_log {A} (a : A) (t : list action) (f : state → state) :
  (∀ s, trace (f s) = trace s) → (∀ s, logfile_read (f s) = logfile_read s) →
  (∀ s, pending (f s) = pending s) → echoes t = [] →
  echo_all (λ s, (Ok a, log t (f s))).
Proof.
  intros Hf Hl Hp Ht s r s' L E. inversion E; subst. simpl_state.
  rewrite Hl, Hf, Hp. split; [exact L|]. exists t. rewrite Ht. auto.
Qed.

Lemma echo_all_sendline h line : echo_all (sendline h line).
Proof.
  now apply (echo_all_log tt [SendLine line] (λ s, set_fs (shell h line (fs s)) s)).
Qed.

Lemma echo_all_expect ps : echo_all (expect ps).
Proof.
  intros s r s' L E. unfold expect in E. rewrite L in E.
  destruct (expect_loop ps (buffer s) (pending s)) as [[[o pend] buf] read] eqn:El.
  assert (s' = log (Echo <$> read) (set_pty pend buf s)) as ->
    by (destruct o; [| |destruct (eof_index ps 0)]; now inversion E).
  simpl_state. split; [exact L|]. exists (Echo <$> read). split; [reflexivity|].
  rewrite echoes_echo. eapply expect_loop_reads, El.
Qed.

Lemma echo_all_getpass prompt : echo_all (getpass prompt).
Proof.
  unfold getpass. apply echo_all_bind; [apply echo_all_get|]. intros s0.
  destruct (secrets s0).
  - apply echo_all_bind; [|intros; apply echo_all_raise].
    now apply (echo_all_log tt [Getpass prompt] (λ s, s)).
  - apply echo_all_bind; [|intros; apply echo_all_ret].
    now apply (echo_all_log tt [Getpass prompt]).
Qed.

End EchoAll.

Ltac echo_all_step :=
  first
    [ apply echo_all_expect | apply echo_all_getpass | apply echo_all_sendline
    | apply echo_all_try
    | apply (echo_all_log tt [_] (λ s, s)); reflexivity
    | apply (echo_all_log tt [_] (set_child _)); reflexivity
    | apply echo_all_ret | apply echo_all_get | apply echo_all_raise
    | apply echo_all_bind; [|intros]
    | match goal with
      | |- echo_all (if ?b then _ else _) => destruct b
      end ].

Lemma echo_all_await_outcome fuel h prompt : echo_all (await_outcome fuel h prompt).
Proof.
  revert prompt. induction fuel as [|fuel IH]; intros prompt; cbn [await_outcome].
  - apply echo_all_raise.
  - apply echo_all_bind; [apply echo_all_expect|]. intros [i g]. cbn [fst snd].
    destruct i as [|[|[|i]]]; unfold terminate, send, modify; repeat echo_all_step; auto.
Qed.

(** X7.  With the debug flag set, a run of [mount] writes to [sys.stdout]
    all the child output it reads, chunk by chunk and in order: what the
    child had to say at the start is what was echoed followed by what is
    still unread at the end. *)
Theorem mount_with_debug_echoes_all
    (h : host) (mountpoint : string) (force_remount : bool)
    (s s' : state) (r : result unit) :
  DEBUG h = true →
  mount h mountpoint force_remount s = (r, s') →
  ∃ t, trace s' = (trace s ++ t)%list ∧
       pending s = ((Data <$> echoes t) ++ pending s')%list.
Proof.
  intros Hd E. unfold mount in E. run.
  destruct (negb force_remount && _).
  { inversion E; subst. exists [Print (already_mounted_message (expanduser h mountpoint))].
    simpl_state. auto. }
  apply bind_inv in E as [(st & s1 & E1 & E)|(e & E1 & ->)].
  - assert (C : pending s1 = pending s ∧
                ∃ t1, trace s1 = (trace s ++ t1)%list ∧ echoes t1 = []).
    { apply configure_Ok in E1 as (_ & _ & _ & f' & [->| ->]); simpl_state.
      - split; [reflexivity|]. exists []. now rewrite app_nil_r.
      - split; [reflexivity|]. eexists. split; reflexivity. }
    destruct C as (P1 & t1 & T1 & H1).
    unfold open_session, spawn in E. rewrite !bind_assoc in E.
    destruct (spawn_ok h); run.
    + rewrite Hd in E. rewrite !bind_assoc in E. run.
      match type of E with
      | ?k ?s0 = _ =>
          assert (Hk : echo_all k)
            by (unfold validate, check_mountpoint, launch, handoff, isdir, islink,
                  exists_, listdir, isalive, exitstatus, sendcontrol, print,
                  terminate, modify;
                repeat first [apply echo_all_await_outcome | echo_all_step]);
          destruct (Hk s0 r s' eq_refl E) as (_ & t & T & P)
      end.
      simpl_state. exists (t1 ++ Spawn "/bin/bash" ["--noediting"] (child_env st) :: t)%list.
      rewrite T, T1, <- !app_assoc. split; [reflexivity|].
      rewrite echoes_app, H1. cbn. rewrite <- P1. exact P.
    + inversion E; subst. exists t1. rewrite H1. auto.
  - destruct (environ h !! "HOME") as [home0|] eqn:Hh;
      [|unfold configure, environ_get in E1; rewrite Hh in E1; inversion E1; subst;
        exists []; now rewrite app_nil_r].
    destruct (environ h !! "CLOUDSDK_CONFIG") as [c|] eqn:Hc;
      [|unfold configure, environ_get in E1; rewrite Hh, Hc in E1; inversion E1; subst;
        exists []; now rewrite app_nil_r].
    rewrite (configure_run _ _ _ _ Hh Hc) in E1. cbv zeta in E1.
    destruct (makedirs_fs _ _ _) as [[| |] f'] in E1;
      [discriminate|destruct (fs_isdir _ _) in E1..];
      inversion E1; subst; simpl_state; exists []; now rewrite app_nil_r.
Qed.

Lemma mount_with_debug_echoes_all_witness :
  ∃ t, trace (snd (mount Sim.verbose Sim.drive false Sim.with_auth)) =
         (trace Sim.with_auth ++ t)%list ∧
       pending Sim.with_auth =
         ((Data <$> echoes t) ++
          pending (snd (mount Sim.verbose Sim.drive false Sim.with_auth)))%list.
Proof.
  apply (mount_with_debug_echoes_all Sim.verbose Sim.drive false Sim.with_auth _
           (fst (mount Sim.verbose Sim.drive false Sim.with_auth))).
  - reflexivity.
  - vm_compute. reflexivity.
Defined.

Lemma mount_fails_on_early_prompt_witness :
  mount Sim.colab Sim.drive false Sim.crash_at_once =
    (Raise (ValueError "mount failed"),
     log [Terminate true] (set_child Terminated Sim.crash_at_once_seen)).
Proof.
  apply (mount_fails_on_early_prompt Sim.colab Sim.drive false Sim.crash_at_once
           Sim.crash_at_once_at_loop Sim.crash_at_once_seen Sim.settings_v4 Sim.PS1 "");
    vm_compute; reflexivity.
Defined.

(** ** The session after a failure that is not caught *)

Section Spares.

Lemma spares_emits {A} (m : M A) :
  emits (λ a, is_terminate a = false) (λ _, True) m → spares_child m.
Proof.
  intros Hm s r s' E. destruct (Hm _ _ _ E) as [(t & T & F) _].
  exists t. auto.
Qed.

Lemma spares_bind {A B} (m : M A) (k : A → M B) :
  spares_child m → (∀ a, spares_child (k a)) → spares_child (bind m k).
Proof.
  intros Hm Hk s r s' E.
  apply bind_inv in E as [(a & s1 & E1 & E)|(e & E1 & ->)].
  - destruct (Hm _ _ _ E1) as (t1 & T1 & [(e & [=] & _)|F1]).
    destruct (Hk a _ _ _ E) as (t2 & T2 & H2).
    exists (t1 ++ t2)%list. rewrite T2, T1, app_assoc. split; [reflexivity|].
    destruct H2 as [H2|F2]; [now left|right]. now apply Forall_app.
  - destruct (Hm _ _ _ E1) as (t1 & T1 & [(e' & [= <-] & Hf)|F1]);
      exists t1; (split; [exact T1|]); [left; eauto|now right].
Qed.

Lemma spares_mount_failed {A} :
  spares_child (terminate true ;;; @raise A (ValueError "mount failed")).
Proof.
  intros s r s' E. run. inversion E; subst. simpl_state.
  exists [Terminate true]. split; [reflexivity|]. left.
  exists (ValueError "mount failed"). split; [reflexivity|].
  right. exists "mount failed". split; [reflexivity|]. apply elem_of_cons. now left.
Qed.

Lemma spares_validate m : spares_child (validate m).
Proof.
  intros s r s' E. rewrite validate_run in E.
  destruct (verdict (fs s) m) as [e|] eqn:V; inversion E; subst; simpl_state.
  - exists [Terminate true]. split; [reflexivity|]. left.
    exists e. split; [reflexivity|].
    destruct (verdict_kind _ _ _ V) as [->|[msg ->]]; [now left|].
    right. exists msg. split; [reflexivity|].
    apply elem_of_cons. right. eapply verdict_messages, V.
  - exists []. rewrite app_nil_r. split; [reflexivity|]. now right.
Qed.

End Spares.

Ltac spares_leaf :=
  apply spares_emits; solve [emits_walk; intros; first [reflexivity | exact I]].

Lemma spares_await_outcome fuel h prompt : spares_child (await_outcome fuel h prompt).
Proof.
  revert prompt. induction fuel as [|fuel IH]; intros prompt; cbn [await_outcome].
  - spares_leaf.
  - apply spares_bind; [spares_leaf|]. intros [i g]. cbn [fst snd].
    destruct i as [|[|[|i]]]; [spares_leaf|apply spares_mount_failed| |apply IH].
    apply spares_bind; [spares_leaf|]. intros code.
    apply spares_bind; [spares_leaf|]. intros; apply IH.
Qed.

Lemma unhandled_not_fatal e : e ∈ unhandled_failures → ¬ fatal e.
Proof.
  intros He Hf. unfold unhandled_failures in He.
  destruct Hf as [->|(msg & -> & _)];
    repeat (apply elem_of_cons in He as [He|He]; [discriminate|]);
    now apply elem_of_nil in He.
Qed.

(** X9.  A run of [mount] that ends with pexpect's [TIMEOUT] or [EOF], with
    [EOFError] from [getpass] or with a failed assertion has spawned bash and
    has not called [d.terminate]: none of these failures is caught, so the
    session is left as it was when the failure occurred.  (Whether the shell
    is still alive then is the host's matter; after [EOF] it has closed its
    output by itself.) *)
Theorem mount_skips_terminate_on_unhandled_failure
    (h : host) (mountpoint : string) (force_remount : bool)
    (s s' : state) (e : exn) :
  e ∈ unhandled_failures →
  mount h mountpoint force_remount s = (Raise e, s') →
  ∃ t1 t2 env,
    trace s' = (trace s ++ t1 ++ Spawn "/bin/bash" ["--noediting"] env :: t2)%list ∧
    Forall (λ a, is_terminate a = false) (t1 ++ t2).
Proof.
  intros He E.
  pose proof (unhandled_not_fatal _ He) as Nf.
  assert (Ne : ∀ msg, e ≠ ValueError msg).
  { intros msg ->. unfold unhandled_failures in He.
    repeat (apply elem_of_cons in He as [He|He]; [discriminate|]).
    now apply elem_of_nil in He. }
  assert (Nk : ∀ key, e ≠ KeyError key).
  { intros key ->. unfold unhandled_failures in He.
    repeat (apply elem_of_cons in He as [He|He]; [discriminate|]).
    now apply elem_of_nil in He. }
  assert (Np : e ≠ ExceptionPexpect).
  { intros ->. unfold unhandled_failures in He.
    repeat (apply elem_of_cons in He as [He|He]; [discriminate|]).
    now apply elem_of_nil in He. }
  unfold mount in E. run.
  destruct (negb force_remount && _); [discriminate|].
  apply bind_inv in E as [(st & s1 & E1 & E)|(e' & E1 & Ee)].
  - assert (C : ∃ t1, trace s1 = (trace s ++ t1)%list ∧
                      Forall (λ a, is_terminate a = false) t1).
    { apply configure_Ok in E1 as (_ & _ & _ & f' & [->| ->]); simpl_state.
      - exists []. now rewrite app_nil_r.
      - eexists. split; [reflexivity|]. now repeat constructor. }
    destruct C as (t1 & T1 & F1).
    unfold open_session, spawn in E. rewrite !bind_assoc in E.
    destruct (spawn_ok h); run; [|inversion E; subst; now destruct Np].
    rewrite !bind_assoc in E.
    match type of E with
    | ?k ?s0 = _ =>
        assert (Hk : spares_child k)
          by (repeat first
                [ apply spares_validate | apply spares_await_outcome
                | spares_leaf | apply spares_bind; [|intros] ]);
        destruct (Hk s0 _ s' E) as (t2 & T2 & [(e0 & [= <-] & Hf)|F2]);
          [now destruct Nf|]
    end.
    exists t1, t2, (child_env st). split; [|now apply Forall_app].
    rewrite T2. simpl_state. rewrite T1, <- !app_assoc. reflexivity.
  - inversion Ee; subst.
    destruct (environ h !! "HOME") as [home0|] eqn:Hh;
      [|unfold configure, environ_get in E1; rewrite Hh in E1; inversion E1; subst;
        now destruct (Nk "HOME")].
    destruct (environ h !! "CLOUDSDK_CONFIG") as [c|] eqn:Hc;
      [|unfold configure, environ_get in E1; rewrite Hh, Hc in E1; inversion E1; subst;
        now destruct (Nk "CLOUDSDK_CONFIG")].
    rewrite (configure_run _ _ _ _ Hh Hc) in E1. cbv zeta in E1.
    destruct (makedirs_fs _ _ _) as [[| |] f'] in E1;
      [discriminate|destruct (fs_isdir _ _) in E1..];
      inversion E1; subst; exfalso; eapply Ne; reflexivity.
Qed.

(** The theorem on the run in which the drive binary falls silent after the
    authorization code was sent: [mount] ends with [TIMEOUT]. *)
Lemma mount_skips_terminate_on_unhandled_failure_witness :
  fst (mount Sim.colab Sim.drive false Sim.crash_after_auth) = Raise TIMEOUT ∧
  ∃ t1 t2 env,
    trace (snd (mount Sim.colab Sim.drive false Sim.crash_after_auth)) =
      (trace Sim.crash_after_auth ++ t1 ++ Spawn "/bin/bash" ["--noediting"] env :: t2)%list ∧
    Forall (λ a, is_terminate a = false) (t1 ++ t2).
Proof.
  split; [vm_compute; reflexivity|].
  apply (mount_skips_terminate_on_unhandled_failure Sim.colab Sim.drive false
           Sim.crash_after_auth _ TIMEOUT).
  - unfold unhandled_failures. apply elem_of_cons. now left.
  - vm_compute. reflexivity.
Defined.
